(** * A shallow embedding of the workflow engine (WorkflowManager and its
      collaborators) and the properties of its transition protocol.

    The TypeScript classes are translated field by field.  State objects are
    shared between the [states] array and the [currentState] /
    [previousState] pointers, so they live in an explicit object store
    ([heap]) and are designated by references.  Node's timer queue, the
    console/monitor log and the webhook sink are part of the [World] the
    manager runs in.  Methods are computations in a small state-and-exception
    monad: a [throw] keeps every mutation made before it, as in JavaScript. *)

From stdpp Require Import gmap strings list fin_maps.
From Stdlib Require Import ZArith Lia.

Local Open Scope string_scope.
Local Open Scope list_scope.
Local Open Scope Z_scope.

(** ** Graph model *)

(** Modelled from the spec: the State class ([./state] is imported by the
    manager but its file is not among the sources).  The spec gives
    [{ name: string, isActive: bool }]; [new State(name)] is taken to start
    inactive. *)
Record State := mkState { name : string; isActive : bool }.

Definition newState (n : string) : State := mkState n false.

(** A reference to a State object in the object store. *)
Abbreviation ref := nat.

(** [condition: () => boolean].  The closures the manager builds itself
    ([initializeWorkflow]) read the rule engine when they are called; a
    closure handed to [addTransition] by a caller is modelled by the boolean
    it returns. *)
Inductive Condition :=
  | RuleRef (rule : string)
  | Closure (result : bool).

Record Transition := mkTransition {
  from : string;
  to : string;
  condition : Condition
}.

(** An Event's callback is opaque; it is identified by a number and its
    invocation is recorded in the log. *)
Record Event := mkEvent { eventName : string; callback : nat }.

(** ** Errors

    The code has one error class, [WorkflowError], told apart by its message,
    and the plain [Error] of the rule engine.  [NullDereference] is the
    TypeError of [this.currentState!.isActive = false] on a null pointer. *)
Inductive WorkflowError :=
  | InvalidTransition (stateName : string)
  | NoPreviousState
  | RuleNotFound (rule : string)
  | NullDereference.

Definition message (e : WorkflowError) : string :=
  match e with
  | InvalidTransition s => "Cannot transition to state: " +:+ s
  | NoPreviousState => "No previous state to rollback to"
  | RuleNotFound r => "Rule " +:+ r +:+ " not found"
  | NullDereference => "Cannot set properties of null"
  end.

(** ** Storage backends *)

(** [MemoryStorage] holds a JS object used as a map.  The networked backends
    keep their data outside the process: a write is recorded in the log and a
    read is answered by the environment.  That a networked request can be
    rejected (no connection yet, a failing server) is not represented: about
    these backends the log says what was requested, and what a call achieves
    is stated for the backends in the process only. *)
Inductive Storage :=
  | MemoryStorage (storage : gmap string string)
  | MongoStorage
  | RedisStorage
  | NoStorage.

Module Memory.
Definition set (key value : string) (m : gmap string string) : gmap string string :=
  <[key := value]> m.
Definition get (key : string) (m : gmap string string) : option string :=
  m !! key.
Definition remove (key : string) (m : gmap string string) : gmap string string :=
  delete key m.
End Memory.

(** ** Observable effects *)

Inductive Payload :=
  | FromTo (from_ to_ : string)
  | EventPayload (event : string).

Inductive Effect :=
  | LogStateChange (oldState newState : string)
  | LogEventTrigger (eventName : string)
  | WebhookSend (url : string) (payload : Payload)
  | HandleError (e : WorkflowError)
  | CallbackInvoked (cb : nat)
  | MongoSet (collection key value : string)
  | RedisSet (key value : string).

(** ** The manager and its world *)

(** An armed [setTimeout]: every callback the manager arms is the closure of
    [setTimer], which differs only in the captured [stateName]. *)
Record Timeout := mkTimeout { handle : nat; target : string; expiry : Z }.

(** The fields of the class that the transition protocol reads or writes
    (the logger, translator, authorization and plugin objects are left out).
    The JS objects used as maps are finite maps; their keys are taken not to
    collide with the property names of [Object.prototype]. *)
Record WorkflowManager := mkWorkflowManager {
  states : list ref;
  transitions : list Transition;
  events : list Event;
  currentState : option ref;
  storage : Storage;
  timers : gmap string nat;
  config : gmap string string;
  previousState : option ref;
  ruleEngine : gmap string bool;
  eventManager : gmap string (list nat)
}.

(** The manager together with what it runs in: the State objects, the armed
    timers of the Node event loop with its clock, and the log of calls made
    to the monitor, the error handler, the webhook and the listeners. *)
Record World := mkWorld {
  heap : list State;
  this : WorkflowManager;
  loop : list Timeout;
  clock : Z;
  nextHandle : nat;
  console : list Effect
}.

(** Field updates. *)
Definition set_states v (m : WorkflowManager) :=
  mkWorkflowManager v (transitions m) (events m) (currentState m) (storage m)
    (timers m) (config m) (previousState m) (ruleEngine m) (eventManager m).
Definition set_transitions v (m : WorkflowManager) :=
  mkWorkflowManager (states m) v (events m) (currentState m) (storage m)
    (timers m) (config m) (previousState m) (ruleEngine m) (eventManager m).
Definition set_events v (m : WorkflowManager) :=
  mkWorkflowManager (states m) (transitions m) v (currentState m) (storage m)
    (timers m) (config m) (previousState m) (ruleEngine m) (eventManager m).
Definition set_currentState v (m : WorkflowManager) :=
  mkWorkflowManager (states m) (transitions m) (events m) v (storage m)
    (timers m) (config m) (previousState m) (ruleEngine m) (eventManager m).
Definition set_storage v (m : WorkflowManager) :=
  mkWorkflowManager (states m) (transitions m) (events m) (currentState m) v
    (timers m) (config m) (previousState m) (ruleEngine m) (eventManager m).
Definition set_timers v (m : WorkflowManager) :=
  mkWorkflowManager (states m) (transitions m) (events m) (currentState m) (storage m)
    v (config m) (previousState m) (ruleEngine m) (eventManager m).
Definition set_config v (m : WorkflowManager) :=
  mkWorkflowManager (states m) (transitions m) (events m) (currentState m) (storage m)
    (timers m) v (previousState m) (ruleEngine m) (eventManager m).
Definition set_previousState v (m : WorkflowManager) :=
  mkWorkflowManager (states m) (transitions m) (events m) (currentState m) (storage m)
    (timers m) (config m) v (ruleEngine m) (eventManager m).
Definition set_ruleEngine v (m : WorkflowManager) :=
  mkWorkflowManager (states m) (transitions m) (events m) (currentState m) (storage m)
    (timers m) (config m) (previousState m) v (eventManager m).
Definition set_eventManager v (m : WorkflowManager) :=
  mkWorkflowManager (states m) (transitions m) (events m) (currentState m) (storage m)
    (timers m) (config m) (previousState m) (ruleEngine m) v.

Definition set_heap v (w : World) :=
  mkWorld v (this w) (loop w) (clock w) (nextHandle w) (console w).
Definition set_this v (w : World) :=
  mkWorld (heap w) v (loop w) (clock w) (nextHandle w) (console w).
Definition set_loop v (w : World) :=
  mkWorld (heap w) (this w) v (clock w) (nextHandle w) (console w).
Definition set_clock v (w : World) :=
  mkWorld (heap w) (this w) (loop w) v (nextHandle w) (console w).
Definition set_nextHandle v (w : World) :=
  mkWorld (heap w) (this w) (loop w) (clock w) v (console w).
Definition set_console v (w : World) :=
  mkWorld (heap w) (this w) (loop w) (clock w) (nextHandle w) v.

(** ** The method monad *)

Module Import Method.
Definition M (A : Type) : Type := World -> (WorkflowError + A) * World.

Definition ret {A} (a : A) : M A := fun w => (inr a, w).
Definition throw {A} (e : WorkflowError) : M A := fun w => (inl e, w).
Definition bind {A B} (m : M A) (k : A -> M B) : M B :=
  fun w => match m w with
           | (inl e, w') => (inl e, w')
           | (inr a, w') => k a w'
           end.
(** [try { m } catch (error) { h error }] *)
Definition try_catch {A} (m : M A) (h : WorkflowError -> M A) : M A :=
  fun w => match m w with
           | (inl e, w') => h e w'
           | (inr a, w') => (inr a, w')
           end.
Definition get : M World := fun w => (inr w, w).
Definition gets {A} (f : World -> A) : M A := fun w => (inr (f w), w).
Definition modify (f : World -> World) : M unit := fun w => (inr tt, f w).
Definition modify_this (f : WorkflowManager -> WorkflowManager) : M unit :=
  modify (fun w => set_this (f (this w)) w).
(** Append one effect to the log. *)
Definition emit (e : Effect) : M unit :=
  modify (fun w => set_console (console w ++ [e]) w).
#[global] Instance M_ret : MRet M := @ret.
#[global] Instance M_bind : MBind M := fun A B k m => bind m k.
End Method.

(** ** Rule engine *)

Module RuleEngine.
Definition addRule (n : string) (rule : bool) (rules : gmap string bool)
  : gmap string bool := <[n := rule]> rules.

Definition evaluateRule (n : string) (rules : gmap string bool)
  : WorkflowError + bool :=
  match rules !! n with
  | Some rule => inr rule
  | None => inl (RuleNotFound n)
  end.
End RuleEngine.

(** ** Event manager *)

Module EventManager.
Definition on (eventName : string) (cb : nat) (evs : gmap string (list nat))
  : gmap string (list nat) :=
  <[eventName := default [] (evs !! eventName) ++ [cb]]> evs.

(** A listener is known by its identity; its call is the log entry
    [CallbackInvoked] and is taken to return. *)
Definition trigger (eventName : string) : M unit :=
  w ← get;
  match eventManager (this w) !! eventName with
  | Some eventCallbacks =>
      modify (fun w => set_console (console w ++ map CallbackInvoked eventCallbacks) w)
  | None => mret tt
  end.
End EventManager.

(** ** Helpers on the object store and on JavaScript values *)

(** A string is truthy when it is not empty. *)
Definition truthy (s : string) : bool := negb (bool_decide (s = "")).

(** The object a reference designates.  A JS reference always designates an
    object; the default only makes the function total. *)
Definition deref (r : ref) (w : World) : State :=
  default (mkState "" false) (heap w !! r).

(** [state.isActive = b] on the object [r]. *)
Definition set_isActive (r : ref) (b : bool) (w : World) : World :=
  set_heap (alter (fun s => mkState (name s) b) r (heap w)) w.

(** [new State(name)] *)
Definition createState (n : string) : M ref :=
  w ← get;
  modify (set_heap (heap w ++ [newState n]));;
  mret (length (heap w)).

(** [this.states.find(state => state.name === stateName)] *)
Definition find_state (stateName : string) (w : World) : option ref :=
  List.find (fun r => bool_decide (name (deref r w) = stateName)) (states (this w)).

(** [this.currentState?.name] *)
Definition currentName (w : World) : option string :=
  r ← currentState (this w); Some (name (deref r w)).

Definition webhookUrl (w : World) : option string :=
  u ← config (this w) !! "webhookUrl"; if truthy u then Some u else None.

(** ** WorkflowManager methods *)

Definition saveState (stateName : string) : M unit :=
  w ← get;
  match storage (this w) with
  | MemoryStorage m =>
      modify_this (set_storage (MemoryStorage (Memory.set "currentState" stateName m)))
  | MongoStorage => emit (MongoSet "workflow" "currentState" stateName)
  | RedisStorage => emit (RedisSet "currentState" stateName)
  | NoStorage => mret tt
  end.

Definition addState (state : ref) : M unit :=
  modify_this (fun m => set_states (states m ++ [state]) m);;
  w ← get;
  match currentState (this w) with
  | None =>
      modify_this (set_currentState (Some state));;
      modify (set_isActive state true);;
      saveState (name (deref state w))
  | Some _ => mret tt
  end.

Definition addTransition (transition : Transition) : M unit :=
  modify_this (fun m => set_transitions (transitions m ++ [transition]) m).

Definition addEvent (event : Event) : M unit :=
  modify_this (fun m => set_events (events m ++ [event]) m).

Definition on (eventName : string) (cb : nat) : M unit :=
  modify_this (fun m => set_eventManager (EventManager.on eventName cb (eventManager m)) m).

Definition addRule (n : string) (rule : bool) : M unit :=
  modify_this (fun m => set_ruleEngine (RuleEngine.addRule n rule (ruleEngine m)) m).

Definition evaluateRule (n : string) : M bool :=
  w ← get;
  match RuleEngine.evaluateRule n (ruleEngine (this w)) with
  | inl e => throw e
  | inr b => mret b
  end.

(** [transition.canTransition()] *)
Definition canTransition (t : Transition) : M bool :=
  match condition t with
  | RuleRef r => evaluateRule r
  | Closure b => mret b
  end.

Definition sendWebhook (p : Payload) : M unit :=
  w ← get;
  match webhookUrl w with
  | Some url => emit (WebhookSend url p)
  | None => mret tt
  end.

Definition triggerEvent (eventName : string) : M unit :=
  EventManager.trigger eventName;;
  emit (LogEventTrigger eventName);;
  sendWebhook (EventPayload eventName).

Definition getCurrentState (w : World) : option ref := currentState (this w).

Definition rollback : M unit :=
  w ← get;
  match previousState (this w) with
  | Some p =>
      match currentState (this w) with
      | Some c => modify (set_isActive c false)
      | None => throw NullDereference
      end;;
      modify_this (set_currentState (Some p));;
      modify (set_isActive p true);;
      modify_this (set_previousState None);;
      emit (LogStateChange "rollback" (name (deref p w)))
  | None => throw NoPreviousState
  end.

(** *** Timers *)

(** Node clamps the delay of [setTimeout] into [1 .. 2^31-1] (anything
    outside becomes 1). *)
Definition TIMEOUT_MAX : Z := 2147483647.
Definition clampDelay (delay : Z) : Z :=
  if (1 <=? delay) && (delay <=? TIMEOUT_MAX) then delay else 1.

(** [setTimeout(cb, delay)] for the callback capturing [stateName]: arms a
    new one-shot timer and returns its handle. *)
Definition setTimeout (stateName : string) (delay : Z) : M nat :=
  w ← get;
  let h := nextHandle w in
  modify (set_loop (loop w ++ [mkTimeout h stateName (clock w + clampDelay delay)]));;
  modify (set_nextHandle (S h));;
  mret h.

(** [clearTimeout(handle)] *)
Definition clearTimeout (h : nat) : M unit :=
  modify (fun w => set_loop (filter (fun t => handle t ≠ h) (loop w)) w).

(** The arrow function armed by [setTimer]. *)
Definition onTimeout (stateName : string) : M unit :=
  w ← get;
  match find_state stateName w with
  | Some newState =>
      modify (set_isActive newState true);;
      modify_this (set_currentState (Some newState));;
      saveState (name (deref newState w));;
      emit (LogStateChange "timed transition" stateName);;
      sendWebhook (FromTo "timed transition" stateName);;
      triggerEvent ("transitionTo" +:+ stateName)
  | None => mret tt
  end.

Definition setTimer (stateName : string) (delay : Z) : M unit :=
  timer ← setTimeout stateName delay;
  modify_this (fun m => set_timers (<[stateName := timer]> (timers m)) m).

Definition clearTimer (stateName : string) : M unit :=
  w ← get;
  match timers (this w) !! stateName with
  | Some timer =>
      clearTimeout timer;;
      modify_this (fun m => set_timers (delete stateName (timers m)) m)
  | None => mret tt
  end.

(** *** transitionTo *)

(** The [find] over the edges: [transition.from === this.currentState?.name
    && transition.to === stateName]. *)
Definition matches (w : World) (stateName : string) (t : Transition) : bool :=
  bool_decide (Some (from t) = currentName w) && bool_decide (to t = stateName).

(** The body of the [try] block. *)
Definition transitionTo_try (stateName : string) (delay : Z) : M unit :=
  w ← get;
  let transition := List.find (matches w stateName) (transitions (this w)) in
  ok ← match transition with
       | Some t => canTransition t
       | None => mret false
       end;
  if ok : bool then
    let oldStateName :=
      match currentState (this w) with
      | Some c => name (deref c w)
      | None => "none"
      end in
    match currentState (this w) with
    | Some c => modify (set_isActive c false)
    | None => mret tt
    end;;
    if 0 <? delay then
      setTimer stateName delay
    else
      w1 ← get;
      match find_state stateName w1 with
      | Some newState =>
          modify_this (set_previousState (currentState (this w1)));;
          modify (set_isActive newState true);;
          modify_this (set_currentState (Some newState));;
          saveState (name (deref newState w1))
      | None => mret tt
      end;;
      emit (LogStateChange oldStateName stateName);;
      sendWebhook (FromTo oldStateName stateName);;
      triggerEvent ("transitionTo" +:+ stateName)
  else
    throw (InvalidTransition stateName).

(** [async transitionTo(stateName, delay = 0)]: the body has no [await], so
    it runs to completion when called; [inl e] is the rejected promise. *)
Definition transitionTo (stateName : string) (delay : Z) : M unit :=
  try_catch (transitionTo_try stateName delay)
            (fun error => emit (HandleError error);; rollback).

(** *** Loading and versions *)

(** [remote] is what a networked backend answers to the [get]; the memory
    backend does not use it. *)
Definition storageGet (key : string) (remote : option string) (w : World)
  : option string :=
  match storage (this w) with
  | MemoryStorage m => Memory.get key m
  | MongoStorage => remote
  | RedisStorage => remote
  | NoStorage => None
  end.

Definition loadState (remote : option string) : M unit :=
  w ← get;
  match storageGet "currentState" remote w with
  | Some stateName =>
      if truthy stateName then
        match find_state stateName w with
        | Some state =>
            modify (set_isActive state true);;
            modify_this (set_currentState (Some state))
        | None => mret tt
        end
      else mret tt
  | None => mret tt
  end.

Definition getVersion (w : World) : option string := config (this w) !! "version".

Definition setVersion (version : string) : M unit :=
  modify_this (fun m => set_config (<["version" := version]> (config m)) m).

Definition saveVersion (version : string) : M unit :=
  setVersion version;;
  w ← get;
  match storage (this w) with
  | MemoryStorage m =>
      modify_this (set_storage (MemoryStorage (Memory.set "version" version m)))
  | MongoStorage => emit (MongoSet "workflow" "version" version)
  | RedisStorage => emit (RedisSet "version" version)
  | NoStorage => mret tt
  end.

Definition loadVersion (remote : option string) : M unit :=
  w ← get;
  match storageGet "version" remote w with
  | Some version => if truthy version then setVersion version else mret tt
  | None => mret tt
  end.

(** *** Construction *)

Record WorkflowDefinition := mkWorkflowDefinition {
  def_states : list string;
  def_transitions : list (string * string * string);
  def_events : list Event
}.

Fixpoint forEach {A} (f : A -> M unit) (l : list A) : M unit :=
  match l with
  | [] => mret tt
  | x :: l' => f x;; forEach f l'
  end.

Definition initializeWorkflow (definition : WorkflowDefinition) : M unit :=
  forEach (fun n => s ← createState n; addState s) (def_states definition);;
  forEach (fun '(f, t, c) => addTransition (mkTransition f t (RuleRef c)))
          (def_transitions definition);;
  forEach addEvent (def_events definition).

Definition emptyManager (cfg : gmap string string) (st : Storage) : WorkflowManager :=
  mkWorkflowManager [] [] [] None st ∅ cfg None ∅ ∅.

Definition emptyWorld (m : WorkflowManager) : World := mkWorld [] m [] 0 0%nat [].

(** [new WorkflowManager(workflowDefinition, customConfig)].  The default
    configuration ([../config/defaultConfig]) is not among the sources and is a
    parameter.  For [mongo] and [redis] the constructor also reads
    [config.storageConfig] and starts a connection; the manager below is the
    one built when that succeeds. *)
Definition construct (defaultConfig : gmap string string)
    (workflowDefinition : option WorkflowDefinition)
    (customConfig : gmap string string) : World :=
  let cfg := customConfig ∪ defaultConfig in
  let st :=
    match cfg !! "storageType" with
    | Some "memory" => MemoryStorage ∅
    | Some "mongo" => MongoStorage
    | Some "redis" => RedisStorage
    | _ => NoStorage
    end in
  let w := emptyWorld (emptyManager cfg st) in
  match workflowDefinition with
  | Some definition => snd (initializeWorkflow definition w)
  | None => w
  end.

(** ** The event loop *)

(** The armed timer that fires next: the smallest expiry, the oldest among
    equals. *)
Fixpoint earliest (l : list Timeout) : option Timeout :=
  match l with
  | [] => None
  | t :: l' =>
      match earliest l' with
      | Some t' => if expiry t' <? expiry t then Some t' else Some t
      | None => Some t
      end
  end.

Definition nextDue (deadline : Z) (l : list Timeout) : option Timeout :=
  earliest (filter (fun t => expiry t ≤ deadline) l).

(** Fires, in order, the timers that expire up to [deadline]. *)
Fixpoint runLoop (fuel : nat) (deadline : Z) (w : World) : World :=
  match fuel with
  | O => w
  | S fuel' =>
      match nextDue deadline (loop w) with
      | Some t =>
          let w1 := set_clock (Z.max (clock w) (expiry t))
                      (set_loop (filter (fun t' => handle t' ≠ handle t) (loop w)) w) in
          runLoop fuel' deadline (snd (onTimeout (target t) w1))
      | None => w
      end
  end.

(** Let [ms] milliseconds pass. *)
Definition advance (ms : Z) (w : World) : World :=
  let deadline := clock w + ms in
  set_clock deadline (runLoop (length (loop w)) deadline w).

(** ** Observations *)

(** Runs a method for its effect on the world. *)
Definition exec {A} (m : M A) (w : World) : World := snd (m w).

#[global] Instance Payload_eq_dec : EqDecision Payload.
Proof. solve_decision. Defined.
#[global] Instance WorkflowError_eq_dec : EqDecision WorkflowError.
Proof. solve_decision. Defined.
#[global] Instance Effect_eq_dec : EqDecision Effect.
Proof. solve_decision. Defined.

(** The State objects of the [states] array whose [isActive] is true, each
    object counted once. *)
Definition activeStates (w : World) : list ref :=
  filter (fun r => isActive (deref r w) = true) (remove_dups (states (this w))).

(** Exactly one State of the list has [isActive = true]. *)
Definition exactlyOneActive (w : World) : Prop := length (activeStates w) = 1%nat.

(** The name under the key [currentState] of the memory backend. *)
Definition storedStateName (w : World) : option string :=
  match storage (this w) with
  | MemoryStorage m => Memory.get "currentState" m
  | _ => None
  end.

(** How often the timer callback for [stateName] has run to the end. *)
Definition firings (stateName : string) (w : World) : nat :=
  length (filter (fun e => e = LogStateChange "timed transition" stateName) (console w)).

(** The armed timers whose callback targets [stateName]. *)
Definition pendingFor (stateName : string) (w : World) : list Timeout :=
  filter (fun t => target t = stateName) (loop w).

(** The errors handed to [ErrorHandler.handleError] so far. *)
Definition handledErrors (w : World) : list WorkflowError :=
  omap (fun e => match e with HandleError err => Some err | _ => None end) (console w).

(** The world after [ErrorHandler.handleError(error)]. *)
Definition reported (e : WorkflowError) (w : World) : World :=
  set_console (console w ++ [HandleError e]) w.

(** ** Sequences of calls *)

Inductive Op :=
  | OpAddState (n : string)
  | OpAddTransition (t : Transition)
  | OpAddRule (n : string) (rule : bool)
  | OpAddEvent (e : Event)
  | OpTransitionTo (stateName : string)
  | OpRollback.

(** [OpAddState n] is [addState(new State(n))]; [OpTransitionTo s] is the
    immediate [transitionTo(s)]. *)
Definition step (op : Op) : M unit :=
  match op with
  | OpAddState n => s ← createState n; addState s
  | OpAddTransition t => addTransition t
  | OpAddRule n rule => addRule n rule
  | OpAddEvent e => addEvent e
  | OpTransitionTo s => transitionTo s 0
  | OpRollback => rollback
  end.

(** The caller goes on after a call that threw. *)
Fixpoint runOps (ops : list Op) (w : World) : World :=
  match ops with
  | [] => w
  | op :: ops' => runOps ops' (exec (step op) w)
  end.

(** An edge is added only when a State of its target name is present. *)
Definition admissible (op : Op) (w : World) : Prop :=
  match op with
  | OpAddTransition t => is_Some (find_state (to t) w)
  | _ => True
  end.

Fixpoint admissibleAll (ops : list Op) (w : World) : Prop :=
  match ops with
  | [] => True
  | op :: ops' => admissible op w ∧ admissibleAll ops' (exec (step op) w)
  end.

(** ** The workflow of the test suite and of the README *)

Definition exampleDefinition : WorkflowDefinition :=
  mkWorkflowDefinition
    ["initial"; "in_progress"; "completed"]
    [("initial", "in_progress", "canStart"); ("in_progress", "completed", "canComplete")]
    [mkEvent "taskStarted" 0; mkEvent "taskCompleted" 1].

Definition exampleConfig : gmap string string :=
  {[ "storageType" := "memory"; "webhookUrl" := "http://webhook.url" ]}.

Definition constructed : World := construct ∅ (Some exampleDefinition) exampleConfig.

(** Both guards pass. *)
Definition workflow : World :=
  exec (addRule "canStart" true;; addRule "canComplete" true) constructed.

(** The first edge is guarded by an always-false rule. *)
Definition guardedWorkflow : World :=
  exec (addRule "canStart" false;; addRule "canComplete" true) constructed.

(** [new WorkflowManager()] as the HTTP controller builds it: no definition,
    no State. *)
Definition bareManager : World := construct ∅ None exampleConfig.

(** The workflow with an edge to a name that no State carries (the test
    "should handle errors and rollback"). *)
Definition faultyWorkflow : World :=
  exec (addTransition (mkTransition "in_progress" "invalid_state" (Closure true));;
        transitionTo "in_progress" 0) workflow.

(** The workflow with a second edge out of [initial]. *)
Definition forkedWorkflow : World :=
  exec (addTransition (mkTransition "initial" "completed" (Closure true))) workflow.

(** The calls that build [workflow]: those of [initializeWorkflow] on
    [exampleDefinition], then the two rules. *)
Definition workflowOps : list Op :=
  [OpAddState "initial"; OpAddState "in_progress"; OpAddState "completed";
   OpAddTransition (mkTransition "initial" "in_progress" (RuleRef "canStart"));
   OpAddTransition (mkTransition "in_progress" "completed" (RuleRef "canComplete"));
   OpAddEvent (mkEvent "taskStarted" 0); OpAddEvent (mkEvent "taskCompleted" 1);
   OpAddRule "canStart" true; OpAddRule "canComplete" true].

(** The first two states and the first edge, added call by call. *)
Definition exampleOps : list Op :=
  [OpAddState "initial"; OpAddState "in_progress"; OpAddRule "canStart" true;
   OpAddTransition (mkTransition "initial" "in_progress" (RuleRef "canStart"))].

(** ** Consistency of the pointers and flags *)

(** The part of the world the active-state bookkeeping lives in. *)
Definition core (w : World)
  : list State * list ref * list Transition * option ref * option ref :=
  (heap w, states (this w), transitions (this w),
   currentState (this w), previousState (this w)).

(** The listed States are allocated, the pointers point into the list, the
    active States of the list are exactly the current one, and every edge
    leads to a name some listed State carries. *)
Record Consistent (w : World) : Prop := mkConsistent {
  states_allocated : ∀ r, r ∈ states (this w) -> (r < length (heap w))%nat;
  current_listed :
    match currentState (this w) with
    | Some c => c ∈ states (this w)
    | None => states (this w) = []
    end;
  previous_listed : ∀ p, previousState (this w) = Some p -> p ∈ states (this w);
  active_is_current :
    ∀ r, r ∈ states (this w) ->
      (isActive (deref r w) = true ↔ currentState (this w) = Some r);
  edges_closed : ∀ t, t ∈ transitions (this w) -> is_Some (find_state (to t) w)
}.

(** ** The calls made by [initializeWorkflow] *)

Definition definitionOps (definition : WorkflowDefinition) : list Op :=
  map OpAddState (def_states definition)
  ++ map (fun '(f, t, c) => OpAddTransition (mkTransition f t (RuleRef c)))
         (def_transitions definition)
  ++ map OpAddEvent (def_events definition).

(** The names of the listed States, in the order of the list. *)
Definition stateNames (w : World) : list string :=
  map (fun r => name (deref r w)) (states (this w)).

(** ** What a call adds to the log *)

(** [Webhook.send] guarded by [if (webhookUrl)]. *)
Definition webhookLog (w : World) (p : Payload) : list Effect :=
  match webhookUrl w with
  | Some url => [WebhookSend url p]
  | None => []
  end.

(** What [triggerEvent(eventName)] logs when the event has no listener: the
    monitor line, then the webhook. *)
Definition triggerLog (w : World) (eventName : string) : list Effect :=
  [LogEventTrigger eventName] ++ webhookLog w (EventPayload eventName).

(** ** Where the finite maps and the inert listeners stand for the code

    The code keeps its rules, listeners, options, translations and stored
    values in plain JS objects.  Such an object inherits the properties of
    [Object.prototype]: reading one of these names finds the inherited value
    when the object has no entry of its own, and an assignment to [__proto__]
    stores nothing.  The finite maps agree with the objects on every other
    key. *)
Definition objectPrototypeKeys : list string :=
  ["constructor"; "__defineGetter__"; "__defineSetter__"; "hasOwnProperty";
   "__lookupGetter__"; "__lookupSetter__"; "isPrototypeOf";
   "propertyIsEnumerable"; "toString"; "valueOf"; "__proto__";
   "toLocaleString"].

Definition plainKey (k : string) : Prop := k ∉ objectPrototypeKeys.

(** A listener is an arbitrary function and may throw; the log entry
    [CallbackInvoked] stands for a listener that returns.  An event without a
    listener runs no foreign code: [EventManager.trigger] returns at once. *)
Definition unheard (eventName : string) (w : World) : Prop :=
  eventManager (this w) !! eventName = None.

(** The backends that live in the process: [MemoryStorage], or none at all.
    Their reads and writes cannot fail.  ([MongoStorage] and [RedisStorage]
    need a [storageConfig] to be constructed and a connection to answer.) *)
Definition inProcess (st : Storage) : Prop :=
  match st with
  | MemoryStorage _ | NoStorage => True
  | MongoStorage | RedisStorage => False
  end.

(** A configuration that does not select a networked backend. *)
Definition localBackend (cfg : gmap string string) : Prop :=
  ∀ s, cfg !! "storageType" = Some s -> s ≠ "mongo" ∧ s ≠ "redis".

(** The write a networked backend is asked for. *)
Definition persistLog (w : World) (key value : string) : list Effect :=
  match storage (this w) with
  | MongoStorage => [MongoSet "workflow" key value]
  | RedisStorage => [RedisSet key value]
  | _ => []
  end.

(** The backend after [set(key, value)]. *)
Definition persisted (key value : string) (st : Storage) : Storage :=
  match st with
  | MemoryStorage m => MemoryStorage (Memory.set key value m)
  | _ => st
  end.

(** ** What no method changes *)

(** The graph is the same: the same listed objects under the same names, the
    same edges, rules, listeners, events and configuration. *)
Record SameGraph (w w' : World) : Prop := mkSameGraph {
  same_states : states (this w') = states (this w);
  same_transitions : transitions (this w') = transitions (this w);
  same_events : events (this w') = events (this w);
  same_rules : ruleEngine (this w') = ruleEngine (this w);
  same_listeners : eventManager (this w') = eventManager (this w);
  same_config : config (this w') = config (this w);
  same_length : length (heap w') = length (heap w);
  same_names : ∀ r, name (deref r w') = name (deref r w)
}.

(** A method that keeps the graph, however it ends. *)
Definition framed {A} (m : M A) : Prop := ∀ w, SameGraph w (snd (m w)).

(** The edges [initializeWorkflow] builds from a definition. *)
Definition definedTransitions (definition : WorkflowDefinition) : list Transition :=
  map (fun '(f, t, c) => mkTransition f t (RuleRef c)) (def_transitions definition).

(** Every armed timer carries a handle that was already handed out. *)
Definition handlesIssued (w : World) : Prop :=
  ∀ t, t ∈ loop w -> (handle t < nextHandle w)%nat.

(** ** Configuration *)

Module ConfigManager.
(** [{ ...defaultConfig, ...customConfig }]; an absent [customConfig] is the
    empty map. *)
Definition new (defaultConfig customConfig : gmap string string)
  : gmap string string := customConfig ∪ defaultConfig.
Definition get (key : string) (cfg : gmap string string) : option string :=
  cfg !! key.
Definition set (key value : string) (cfg : gmap string string)
  : gmap string string := <[key := value]> cfg.
Definition getAll (cfg : gmap string string) : gmap string string := cfg.
End ConfigManager.

(** ** Translator *)

Module Translator.
Record t := mk {
  translations : gmap string (gmap string string);
  currentLocale : string
}.

Definition new (defaultLocale : string) : t := mk ∅ defaultLocale.



End Translator.

(** ** Logger *)

Module Logger.
Definition levels : list string := ["info"; "warn"; "error"].

(** [Array.prototype.indexOf]: the first position, or -1. *)
Fixpoint indexOf (x : string) (l : list string) : Z :=
  match l with
  | [] => -1
  | y :: l' =>
      if bool_decide (y = x) then 0
      else let i := indexOf x l' in if i <? 0 then -1 else i + 1
  end.

Definition shouldLog (level logLevel : string) : bool :=
  indexOf logLevel levels <=? indexOf level levels.

(** [toUpperCase] on the ASCII letters (the level names are ASCII). *)
Definition upper (c : Ascii.ascii) : Ascii.ascii :=
  let n := Ascii.nat_of_ascii c in
  if (97 <=? n)%nat && (n <=? 122)%nat then Ascii.ascii_of_nat (n - 32) else c.

Fixpoint toUpperCase (s : string) : string :=
  match s with
  | EmptyString => EmptyString
  | String c s' => String (upper c) (toUpperCase s')
  end.

(** [log(message, level)] on a logger built with [logLevel]: the line handed
    to [console.log], if any. *)
Definition log (logLevel message level : string) : option string :=
  if shouldLog level logLevel
  then Some ("[" +:+ toUpperCase level +:+ "] " +:+ message)
  else None.
End Logger.

(** ** Authorization *)

Module AuthManager.
Record User := mkUser { id : string; roles : list string }.

Record t := mk { users : list User; currentUser : option User }.

(** [Error('User not found')] and [Error('No user authenticated')]. *)
Inductive AuthError := UserNotFound | NoUserAuthenticated.

Definition new : t := mk [] None.

Definition addUser (user : User) (x : t) : t :=
  mk (users x ++ [user]) (currentUser x).

(** A failed call throws before the assignment: the manager is as before. *)
Definition authenticate (userId : string) (x : t) : AuthError + t :=
  match List.find (fun user => bool_decide (id user = userId)) (users x) with
  | Some user => inr (mk (users x) (Some user))
  | None => inl UserNotFound
  end.

(** [roles.some(role => this.currentUser!.roles.includes(role))] *)
Definition authorize (rs : list string) (x : t) : AuthError + bool :=
  match currentUser x with
  | None => inl NoUserAuthenticated
  | Some user => inr (existsb (fun role => bool_decide (role ∈ roles user)) rs)
  end.
End AuthManager.

(** ** Plugins *)

Module PluginManager.
(** A plugin is what its [initialize(workflowManager)] does to the manager. *)
Definition Plugin : Type := M unit.

Definition register (plugin : Plugin) (plugins : list Plugin) : list Plugin :=
  plugins ++ [plugin].

Definition initializePlugins (plugins : list Plugin) : M unit :=
  forEach (fun plugin => plugin) plugins.
End PluginManager.

(** ** Visualization *)

Module WorkflowVisualizer.
Definition nl : string := String (Ascii.ascii_of_nat 10) EmptyString.
Definition quote : string := String (Ascii.ascii_of_nat 34) EmptyString.

Section Graph.
(** [transition.condition.toString()] is the source text of the closure; it
    is supplied from outside. *)
Variable conditionToString : Condition -> string.

Definition stateLine (state : State) : string :=
  "  " +:+ name state +:+ " [shape=ellipse];" +:+ nl.

Definition transitionLine (transition : Transition) : string :=
  "  " +:+ from transition +:+ " -> " +:+ to transition +:+ " [label=" +:+ quote
  +:+ conditionToString (condition transition) +:+ quote +:+ "];" +:+ nl.

Definition generateGraph (sts : list State) (trs : list Transition) : string :=
  let graph := "digraph Workflow {" +:+ nl in
  let graph := fold_left (fun g state => g +:+ stateLine state) sts graph in
  let graph := fold_left (fun g transition => g +:+ transitionLine transition) trs graph in
  graph +:+ "}".
End Graph.
End WorkflowVisualizer.

(** * Properties *)

(** Unfolds the monad and the field updates down to matches on the world. *)
Ltac unmonad :=
  unfold exec, mbind, mret, M_bind, M_ret, bind, ret, throw, try_catch,
    emit, modify_this, modify, gets, get in *;
  cbn [fst snd this heap loop clock nextHandle console
       set_heap set_this set_loop set_clock set_nextHandle set_console
       states transitions events currentState storage timers config
       previousState ruleEngine eventManager
       set_states set_transitions set_events set_currentState set_storage
       set_timers set_config set_previousState set_ruleEngine set_eventManager] in *.

(** ** Rollback *)

Lemma rollback_without_previous w :
  previousState (this w) = None -> rollback w = (inl NoPreviousState, w).
Proof. intros H. unfold rollback. unmonad. now rewrite H. Qed.

Lemma rollback_success_inv w w' :
  rollback w = (inr tt, w') ->
  ∃ p c, previousState (this w) = Some p ∧ currentState (this w) = Some c.
Proof.
  unfold rollback. unmonad.
  destruct (previousState (this w)) as [p|]; [|discriminate].
  destruct (currentState (this w)) as [c|]; [|discriminate].
  eauto.
Qed.

(** C7 (invariant I2): after a successful [rollback()] the [previousState]
    pointer is null, and a second [rollback()] right after it throws
    NoPreviousState to its caller, changing nothing. *)
Theorem rollback_consumes_previousState w w' :
  rollback w = (inr tt, w') ->
  previousState (this w') = None ∧ rollback w' = (inl NoPreviousState, w').
Proof.
  intros H.
  assert (Hp : previousState (this w') = None).
  { revert H. unfold rollback. unmonad.
    destruct (previousState (this w)) as [p|]; [|discriminate].
    destruct (currentState (this w)) as [c|]; [|discriminate].
    intros [= <-]. reflexivity. }
  split; [exact Hp | now apply rollback_without_previous].
Qed.

Lemma rollback_consumes_previousState_witness :
  let w := exec (transitionTo "in_progress" 0) workflow in
  previousState (this (exec rollback w)) = None
  ∧ rollback (exec rollback w) = (inl NoPreviousState, exec rollback w).
Proof.
  intros w.
  apply (rollback_consumes_previousState w (exec rollback w)).
  vm_compute. reflexivity.
Defined.

(** When [rollback] fails inside the [catch] of [transitionTo], the promise
    is rejected with that failure. *)
Lemma transitionTo_rollback_failure_propagates stateName delay w e w1 :
  transitionTo_try stateName delay w = (inl e, w1) ->
  previousState (this w1) = None ->
  fst (transitionTo stateName delay w) = inl NoPreviousState.
Proof.
  intros Htry Hp. unfold transitionTo, try_catch. rewrite Htry.
  unmonad. unfold rollback. unmonad. now rewrite Hp.
Qed.

(** ** Timers: cancellation *)

Lemma clearTimer_not_pending stateName w :
  timers (this w) !! stateName = None -> clearTimer stateName w = (inr tt, w).
Proof. intros H. unfold clearTimer. unmonad. now rewrite H. Qed.

(** C8: cancelling twice in a row leaves the same world (timer map and armed
    timers included) as cancelling once, never fails, and cancelling a name
    without an entry changes nothing. *)
Theorem clearTimer_idempotent stateName w :
  clearTimer stateName (exec (clearTimer stateName) w)
    = (inr tt, exec (clearTimer stateName) w)
  ∧ fst (clearTimer stateName w) = inr tt
  ∧ (timers (this w) !! stateName = None -> clearTimer stateName w = (inr tt, w)).
Proof.
  split; [|split].
  - apply clearTimer_not_pending.
    unfold clearTimer. unmonad.
    destruct (timers (this w) !! stateName) eqn:E; cbn; [|exact E].
    apply lookup_delete_eq.
  - unfold clearTimer. unmonad.
    now destruct (timers (this w) !! stateName).
  - apply clearTimer_not_pending.
Qed.

Lemma clearTimer_idempotent_witness :
  timers (this workflow) !! "completed" = None
  ∧ clearTimer "completed" workflow = (inr tt, workflow).
Proof.
  assert (H : timers (this workflow) !! "completed" = None) by (vm_compute; reflexivity).
  split; [exact H|].
  exact (proj2 (proj2 (clearTimer_idempotent "completed" workflow)) H).
Defined.

(** Cancelling disarms the timer the map holds for the name. *)
Lemma clearTimer_disarms stateName w h :
  timers (this w) !! stateName = Some h ->
  let w' := exec (clearTimer stateName) w in
  timers (this w') = delete stateName (timers (this w))
  ∧ loop w' = filter (fun t => handle t ≠ h) (loop w).
Proof.
  intros H. unfold clearTimer, clearTimeout. unmonad. rewrite H. cbn. auto.
Qed.

(** ** Versions *)

(** C9: with the memory backend, [saveVersion(v)] stores [v] under the key
    [version], the following [loadVersion()] reads that [v] back, both
    complete, and [getVersion()] is [v] afterwards, for every string [v]. *)
Theorem saveVersion_loadVersion_roundtrip v remote w m :
  storage (this w) = MemoryStorage m ->
  let w1 := exec (saveVersion v) w in
  let w2 := exec (loadVersion remote) w1 in
  fst (saveVersion v w) = inr tt
  ∧ storageGet "version" remote w1 = Some v
  ∧ fst (loadVersion remote w1) = inr tt
  ∧ getVersion w2 = Some v.
Proof.
  intros Hm.
  assert (Hs : saveVersion v w
    = (inr tt, set_this (set_storage (MemoryStorage (Memory.set "version" v m))
                          (set_config (<["version" := v]> (config (this w))) (this w))) w)).
  { unfold saveVersion, setVersion. unmonad. rewrite Hm. reflexivity. }
  unfold exec. rewrite Hs. cbn [fst snd].
  assert (Hg : ∀ w', storage (this w') = MemoryStorage (Memory.set "version" v m) ->
                 storageGet "version" remote w' = Some v).
  { intros w' E. unfold storageGet, Memory.get, Memory.set. rewrite E.
    apply lookup_insert_eq. }
  repeat split.
  - now apply Hg.
  - unfold loadVersion. unmonad. rewrite Hg by reflexivity.
    unfold setVersion. unmonad. now destruct (truthy v).
  - unfold loadVersion. unmonad. rewrite Hg by reflexivity.
    unfold setVersion, getVersion. unmonad.
    destruct (truthy v); cbn; apply lookup_insert_eq.
Qed.

Lemma saveVersion_loadVersion_roundtrip_witness :
  getVersion (exec (loadVersion None) (exec (saveVersion "2.0.0") workflow)) = Some "2.0.0".
Proof.
  refine (proj2 (proj2 (proj2
    (saveVersion_loadVersion_roundtrip "2.0.0" None workflow
       {[ "currentState" := "initial" ]} _)))).
  vm_compute. reflexivity.
Defined.

(** ** Adding states *)

Lemma set_isActive_deref r b w :
  (r < length (heap w))%nat ->
  deref r (set_isActive r b w) = mkState (name (deref r w)) b.
Proof.
  intros Hr. unfold deref, set_isActive. cbn [heap set_heap].
  destruct (lookup_lt_is_Some_2 (heap w) r Hr) as [s Hs].
  rewrite list_lookup_alter_eq, Hs. reflexivity.
Qed.

Lemma set_isActive_deref_ne r r' b w :
  r ≠ r' -> deref r' (set_isActive r b w) = deref r' w.
Proof.
  intros Hne. unfold deref, set_isActive. cbn [heap set_heap].
  now rewrite list_lookup_alter_ne.
Qed.

Lemma set_isActive_name r r' b w :
  name (deref r' (set_isActive r b w)) = name (deref r' w).
Proof.
  unfold deref, set_isActive. cbn [heap set_heap].
  destruct (decide (r = r')) as [->|Hne].
  - rewrite list_lookup_alter_eq. now destruct (heap w !! r').
  - now rewrite list_lookup_alter_ne.
Qed.

Lemma saveState_spec n w :
  saveState n w =
    (inr tt,
     match storage (this w) with
     | MemoryStorage m =>
         set_this (set_storage (MemoryStorage (<["currentState" := n]> m)) (this w)) w
     | MongoStorage => set_console (console w ++ [MongoSet "workflow" "currentState" n]) w
     | RedisStorage => set_console (console w ++ [RedisSet "currentState" n]) w
     | NoStorage => w
     end).
Proof. unfold saveState. unmonad. now destruct (storage (this w)). Qed.

(** C10: [addState] always appends the object to [states].  With a null
    [currentState] the object becomes the current state, is activated, and
    its name is written to the backend under [currentState]; otherwise the
    pointer, every [isActive] flag (the new object's too), the backend and the
    log stay as they were. *)
Theorem addState_bootstrap (state : ref) w :
  let w' := exec (addState state) w in
  let n := name (deref state w) in
  fst (addState state w) = inr tt
  ∧ states (this w') = states (this w) ++ [state]
  ∧ (currentState (this w) = None ->
       currentState (this w') = Some state
       ∧ ((state < length (heap w))%nat -> deref state w' = mkState n true)
       ∧ (∀ m, storage (this w) = MemoryStorage m ->
            storage (this w') = MemoryStorage (<["currentState" := n]> m)
            ∧ storedStateName w' = Some n)
       ∧ (storage (this w) = MongoStorage ->
            console w' = console w ++ [MongoSet "workflow" "currentState" n])
       ∧ (storage (this w) = RedisStorage ->
            console w' = console w ++ [RedisSet "currentState" n]))
  ∧ (currentState (this w) ≠ None ->
       currentState (this w') = currentState (this w)
       ∧ heap w' = heap w
       ∧ storage (this w') = storage (this w)
       ∧ console w' = console w).
Proof.
  unfold addState. unmonad.
  destruct (currentState (this w)) as [c|] eqn:Ec; cbn.
  - repeat split; try reflexivity; intros; congruence.
  - rewrite saveState_spec. unfold deref, set_isActive. unmonad.
    split; [reflexivity|]. split; [now destruct (storage (this w))|].
    split; [|congruence]. intros _.
    split; [now destruct (storage (this w))|].
    split; [|split; [|split]].
    + intros Hr. destruct (lookup_lt_is_Some_2 (heap w) state Hr) as [s Hs].
      destruct (storage (this w)); unmonad;
        rewrite list_lookup_alter_eq, Hs; reflexivity.
    + intros m Hm. rewrite Hm. unfold storedStateName. cbn.
      split; [reflexivity|]. unfold Memory.get. apply lookup_insert_eq.
    + intros Hm. rewrite Hm. reflexivity.
    + intros Hm. rewrite Hm. reflexivity.
Qed.

Lemma addState_bootstrap_witness :
  let w := exec (createState "initial") bareManager in
  currentState (this (exec (addState 0%nat) w)) = Some 0%nat
  ∧ storedStateName (exec (addState 0%nat) w) = Some "initial".
Proof.
  intros w.
  destruct (addState_bootstrap 0%nat w) as (_ & _ & Hfirst & _).
  destruct Hfirst as (Hc & _ & Hs & _); [vm_compute; reflexivity|].
  split; [exact Hc|].
  apply (Hs ∅). vm_compute. reflexivity.
Defined.

(** ** Rejected transitions *)

Lemma transitionTo_caught stateName delay w e w1 :
  transitionTo_try stateName delay w = (inl e, w1) ->
  transitionTo stateName delay w = rollback (reported e w1).
Proof.
  intros H. unfold transitionTo, try_catch. rewrite H. reflexivity.
Qed.

(** The caller of a rejected [transitionTo] never receives InvalidTransition.
    With the always-false guard on a fresh workflow the call is rejected, but
    with "No previous state to rollback to"; and once a previous state is
    recorded, a call for which no edge exists is not rejected at all: it
    resolves, and the workflow has been moved back to the previous state. *)
Lemma transitionTo_invalid_counterexample :
  fst (transitionTo "in_progress" 0 guardedWorkflow) = inl NoPreviousState
  ∧ fst (transitionTo "in_progress" 0 guardedWorkflow)
    ≠ inl (InvalidTransition "in_progress")
  ∧ let w := exec (transitionTo "in_progress" 0) workflow in
    currentName w = Some "in_progress"
    ∧ List.find (matches w "initial") (transitions (this w)) = None
    ∧ fst (transitionTo "initial" 0 w) = inr tt
    ∧ currentName (exec (transitionTo "initial" 0) w) = Some "initial".
Proof.
  split; [vm_compute; reflexivity|].
  split; [vm_compute; discriminate|].
  repeat split; vm_compute; reflexivity.
Qed.

(** C5 (amended): when no edge matches [(currentState.name, target)], or the
    edge found has a guard that evaluates to false, the [try] block of
    [transitionTo] throws InvalidTransition(target) without having changed
    anything; the error does not reach the caller: the [catch] reports it to
    the error handler and runs [rollback()], whose outcome is the outcome of
    the call.  With no previous state (the fresh workflow of the scenario)
    the call is rejected with NoPreviousState, the world is left as it was
    apart from the report, and [getCurrentState()] is unchanged. *)
Theorem transitionTo_invalid stateName delay w :
  (List.find (matches w stateName) (transitions (this w)) = None
   ∨ ∃ t, List.find (matches w stateName) (transitions (this w)) = Some t
          ∧ canTransition t w = (inr false, w)) ->
  transitionTo_try stateName delay w = (inl (InvalidTransition stateName), w)
  ∧ transitionTo stateName delay w
      = rollback (reported (InvalidTransition stateName) w)
  ∧ (previousState (this w) = None ->
       transitionTo stateName delay w
         = (inl NoPreviousState, reported (InvalidTransition stateName) w)
       ∧ getCurrentState (exec (transitionTo stateName delay) w) = getCurrentState w
       ∧ heap (exec (transitionTo stateName delay) w) = heap w).
Proof.
  intros H.
  assert (Htry : transitionTo_try stateName delay w
                 = (inl (InvalidTransition stateName), w)).
  { unfold transitionTo_try. unmonad.
    destruct H as [-> | (t & -> & ->)]; reflexivity. }
  split; [exact Htry|].
  unfold exec. rewrite (transitionTo_caught _ _ _ _ _ Htry).
  split; [reflexivity|].
  intros Hp.
  rewrite (rollback_without_previous (reported (InvalidTransition stateName) w)) by exact Hp.
  repeat split; reflexivity.
Qed.

(** The scenario of C5: the edge [initial -> in_progress] guarded by an
    always-false rule. *)
Lemma transitionTo_invalid_witness :
  let w' := exec (transitionTo "in_progress" 0) guardedWorkflow in
  currentName guardedWorkflow = Some "initial"
  ∧ transitionTo_try "in_progress" 0 guardedWorkflow
      = (inl (InvalidTransition "in_progress"), guardedWorkflow)
  ∧ fst (transitionTo "in_progress" 0 guardedWorkflow) = inl NoPreviousState
  ∧ currentName w' = Some "initial"
  ∧ console w' = console guardedWorkflow ++ [HandleError (InvalidTransition "in_progress")].
Proof.
  intros w'.
  assert (Hguard :
    List.find (matches guardedWorkflow "in_progress") (transitions (this guardedWorkflow)) = None
    ∨ ∃ t, List.find (matches guardedWorkflow "in_progress")
             (transitions (this guardedWorkflow)) = Some t
           ∧ canTransition t guardedWorkflow = (inr false, guardedWorkflow)).
  { right. exists (mkTransition "initial" "in_progress" (RuleRef "canStart")).
    split; vm_compute; reflexivity. }
  destruct (transitionTo_invalid "in_progress" 0 guardedWorkflow Hguard)
    as (Htry & _ & Hrest).
  destruct Hrest as (Hcall & _ & _); [vm_compute; reflexivity|].
  split; [vm_compute; reflexivity|].
  split; [exact Htry|].
  subst w'. unfold exec. rewrite Hcall.
  split; [reflexivity|].
  split; [vm_compute; reflexivity | reflexivity].
Defined.

(** ** Timers: re-scheduling *)

(** [setTimer] arms a new timer and keeps every timer that was armed. *)
Lemma setTimer_keeps_armed stateName delay w :
  setTimer stateName delay w =
    (inr tt,
     set_this (set_timers (<[stateName := nextHandle w]> (timers (this w))) (this w))
       (set_nextHandle (S (nextHandle w))
          (set_loop (loop w ++ [mkTimeout (nextHandle w) stateName
                                   (clock w + clampDelay delay)]) w))).
Proof. reflexivity. Qed.

(** C2, evaluated on the workflow of the test suite: after two calls of
    [setTimer('completed', 500)] the timer map has one entry, for the second
    handle, but both timers are armed, and when 500 ms have passed the
    callback for [completed] has run twice.  The same happens through two
    calls of [transitionTo('completed', 500)]. *)
Theorem setTimer_twice_fires_twice :
  let w2 := exec (setTimer "completed" 500;; setTimer "completed" 500) workflow in
  let v2 := exec (transitionTo "completed" 500;; transitionTo "completed" 500)
              (exec (transitionTo "in_progress" 0) workflow) in
  map_to_list (timers (this w2)) = [("completed", 1%nat)]
  ∧ map handle (pendingFor "completed" w2) = [0%nat; 1%nat]
  ∧ firings "completed" (advance 500 w2) = 2%nat
  ∧ loop (advance 500 w2) = []
  ∧ map handle (pendingFor "completed" v2) = [0%nat; 1%nat]
  ∧ firings "completed" (advance 500 v2) = 2%nat.
Proof. vm_compute. repeat split; reflexivity. Qed.

(** ** Rollback: what it restores and what it leaves *)

(** [rollback] never touches the backend, the edges or the rules. *)
Lemma rollback_storage_unchanged w :
  storage (this (exec rollback w)) = storage (this w)
  ∧ transitions (this (exec rollback w)) = transitions (this w)
  ∧ ruleEngine (this (exec rollback w)) = ruleEngine (this w)
  ∧ (∀ e, e ∈ console (exec rollback w) -> e ∈ console w ∨ ∃ n, e = LogStateChange "rollback" n).
Proof.
  unfold rollback, set_isActive. unmonad.
  destruct (previousState (this w)) as [p|]; cbn.
  - destruct (currentState (this w)) as [c|]; cbn.
    + repeat split. intros e He. apply elem_of_app in He as [He|He]; [now left|].
      right. apply list_elem_of_singleton in He. eauto.
    + repeat split. intros e He. now left.
  - repeat split. intros e He. now left.
Qed.

(** With a previous state, [rollback] deactivates the current State object,
    makes the previous one current and active, clears [previousState] and
    logs the change with the label [rollback]. *)
Lemma rollback_restores w p c :
  previousState (this w) = Some p ->
  currentState (this w) = Some c ->
  (p < length (heap w))%nat ->
  let w' := exec rollback w in
  fst (rollback w) = inr tt
  ∧ currentState (this w') = Some p
  ∧ previousState (this w') = None
  ∧ deref p w' = mkState (name (deref p w)) true
  ∧ (c ≠ p -> (c < length (heap w))%nat -> deref c w' = mkState (name (deref c w)) false)
  ∧ (∀ r, r ≠ p -> r ≠ c -> deref r w' = deref r w)
  ∧ console w' = console w ++ [LogStateChange "rollback" (name (deref p w))].
Proof.
  intros Hp Hc Hlt. unfold rollback. unmonad. rewrite Hp, Hc.
  unfold set_isActive, deref. unmonad.
  destruct (lookup_lt_is_Some_2 (heap w) p Hlt) as [sp Hsp].
  repeat split.
  - rewrite list_lookup_alter_eq.
    destruct (decide (c = p)) as [->|Hne].
    + rewrite list_lookup_alter_eq, Hsp. reflexivity.
    + rewrite list_lookup_alter_ne, Hsp by exact Hne. reflexivity.
  - intros Hne Hltc.
    destruct (lookup_lt_is_Some_2 (heap w) c Hltc) as [sc Hsc].
    rewrite list_lookup_alter_ne by congruence.
    rewrite list_lookup_alter_eq, Hsc. reflexivity.
  - intros r Hrp Hrc. now rewrite !list_lookup_alter_ne by congruence.
Qed.

(** C3, evaluated on the workflow of the test suite: after
    [transitionTo('in_progress')] and [rollback()] the current state is
    [initial] again, but the backend still holds [in_progress] under
    [currentState]; a [loadState()] then makes [in_progress] current and leaves
    two States active. *)
Theorem rollback_does_not_persist :
  let w1 := exec (transitionTo "in_progress" 0) workflow in
  let w2 := exec rollback w1 in
  let w3 := exec (loadState None) w2 in
  fst (rollback w1) = inr tt
  ∧ currentName w2 = Some "initial"
  ∧ storedStateName w2 = Some "in_progress"
  ∧ currentName w3 = Some "in_progress"
  ∧ activeStates w3 = [0%nat; 1%nat].
Proof. vm_compute. repeat split; reflexivity. Qed.

(** ** Edges to unknown states *)

(** C4, evaluated on the test "should handle errors and rollback": the edge
    [in_progress -> invalid_state] has a passing guard and no State is named
    [invalid_state].  [transitionTo('invalid_state')] completes without an
    error, reports nothing to the error handler, does not roll back
    ([previousState] keeps [initial]), logs the change as if it had happened,
    and leaves [in_progress] current but inactive: no State is active. *)
Theorem transitionTo_unknown_target_silent :
  let r := transitionTo "invalid_state" 0 faultyWorkflow in
  find_state "invalid_state" faultyWorkflow = None
  ∧ activeStates faultyWorkflow = [1%nat]
  ∧ fst r = inr tt
  ∧ handledErrors (snd r) = []
  ∧ previousState (this (snd r)) = previousState (this faultyWorkflow)
  ∧ currentName (snd r) = Some "in_progress"
  ∧ activeStates (snd r) = []
  ∧ LogStateChange "in_progress" "invalid_state" ∈ console (snd r).
Proof.
  vm_compute. repeat split; try reflexivity.
  apply (list_elem_of_lookup_2 _ 4%nat). reflexivity.
Qed.

(** ** Delayed transitions *)

(** A delayed [transitionTo] whose edge passes deactivates the current State
    when it is called, arms the timer and returns; the pointers stay. *)
Lemma transitionTo_delayed_schedules stateName delay w t c :
  0 < delay ->
  List.find (matches w stateName) (transitions (this w)) = Some t ->
  canTransition t w = (inr true, w) ->
  currentState (this w) = Some c ->
  transitionTo stateName delay w
    = setTimer stateName delay (set_isActive c false w).
Proof.
  intros Hd Hf Hg Hc.
  unfold transitionTo, try_catch, transitionTo_try. unmonad.
  rewrite Hf, Hg, Hc. cbn.
  apply Z.ltb_lt in Hd. rewrite Hd. reflexivity.
Qed.

(** C6, evaluated on the workflow of the test suite.  First run:
    [transitionTo('in_progress', 1000)] returns with [initial] still current
    (and already inactive); after 1000 ms [in_progress] is current, saved and
    logged, but [previousState] is still null.  Second run, with the extra
    edge [initial -> completed]: a delayed transition to [completed] followed
    by an immediate one to [in_progress]; when the timer fires [in_progress],
    the then-current State, stays active next to [completed], and
    [previousState] still names [initial]. *)
Theorem delayed_transition_fire_path :
  let w1 := exec (transitionTo "in_progress" 1000) workflow in
  let w2 := advance 1000 w1 in
  let v1 := exec (transitionTo "completed" 1000;; transitionTo "in_progress" 0)
              forkedWorkflow in
  let v2 := advance 1000 v1 in
  fst (transitionTo "in_progress" 1000 workflow) = inr tt
  ∧ currentName w1 = Some "initial"
  ∧ activeStates w1 = []
  ∧ currentName w2 = Some "in_progress"
  ∧ storedStateName w2 = Some "in_progress"
  ∧ LogStateChange "timed transition" "in_progress" ∈ console w2
  ∧ previousState (this w2) = None
  ∧ currentName v1 = Some "in_progress"
  ∧ currentName v2 = Some "completed"
  ∧ activeStates v2 = [1%nat; 2%nat]
  ∧ previousState (this v2) = Some 0%nat.
Proof.
  vm_compute. repeat split; try reflexivity.
  apply (list_elem_of_lookup_2 _ 0%nat). reflexivity.
Qed.

(** ** The single active state *)

Section Core.
Implicit Types (w : World) (r c n p : nat).

Lemma deref_heap w w' r : heap w' = heap w -> deref r w' = deref r w.
Proof. unfold deref. now intros ->. Qed.

Lemma find_ext_in {A} (f g : A -> bool) (l : list A) :
  (∀ x, x ∈ l -> f x = g x) -> List.find f l = List.find g l.
Proof.
  induction l as [|a l IH]; intros H; [reflexivity|]. cbn.
  rewrite (H a) by apply list_elem_of_here.
  destruct (g a); [reflexivity|].
  apply IH. intros x Hx. apply H. now apply list_elem_of_further.
Qed.

Lemma find_app_Some {A} (f : A -> bool) (l l' : list A) x :
  List.find f l = Some x -> List.find f (l ++ l') = Some x.
Proof.
  induction l as [|a l IH]; [discriminate|]. cbn.
  destruct (f a); [trivial | exact IH].
Qed.

(** The lookup by name sees the names of the listed States only. *)
Lemma find_state_names stateName w w' :
  states (this w') = states (this w) ->
  (∀ r, r ∈ states (this w) -> name (deref r w') = name (deref r w)) ->
  find_state stateName w' = find_state stateName w.
Proof.
  intros Hs Hn. unfold find_state. rewrite Hs.
  apply find_ext_in. intros r Hr. now rewrite (Hn r Hr).
Qed.

Lemma find_state_listed stateName w n :
  find_state stateName w = Some n ->
  n ∈ states (this w) ∧ name (deref n w) = stateName.
Proof.
  unfold find_state. intros H. apply find_some in H as [Hin Hb].
  split; [now apply list_elem_of_In|].
  now apply bool_decide_eq_true in Hb.
Qed.

Lemma find_state_set_isActive stateName r b w :
  find_state stateName (set_isActive r b w) = find_state stateName w.
Proof.
  apply find_state_names; [reflexivity|].
  intros r' _. apply set_isActive_name.
Qed.

Lemma canTransition_pure t w : snd (canTransition t w) = w.
Proof.
  unfold canTransition, evaluateRule, RuleEngine.evaluateRule. unmonad.
  destruct (condition t); [|reflexivity].
  now destruct (ruleEngine (this w) !! rule).
Qed.

Lemma Consistent_core w w' : core w' = core w -> Consistent w -> Consistent w'.
Proof.
  unfold core. intros [= Hh Hs Ht Hc Hp] [H1 H2 H3 H4 H5].
  assert (Hf : ∀ s, find_state s w' = find_state s w).
  { intros s. apply find_state_names; [exact Hs|].
    intros r _. now rewrite (deref_heap w w' r Hh). }
  constructor.
  - rewrite Hs, Hh. exact H1.
  - rewrite Hc, Hs. exact H2.
  - rewrite Hp, Hs. exact H3.
  - intros r. rewrite Hs, Hc, (deref_heap w w' r Hh). apply H4.
  - intros t. rewrite Ht, Hf. apply H5.
Qed.

(** Moving the activity from the current State [c] to a listed State [n]. *)
Lemma Consistent_switch w w' c n prev :
  Consistent w ->
  currentState (this w) = Some c ->
  n ∈ states (this w) ->
  (∀ p, prev = Some p -> p ∈ states (this w)) ->
  core w' = (heap (set_isActive n true (set_isActive c false w)),
             states (this w), transitions (this w), Some n, prev) ->
  Consistent w'.
Proof.
  intros [H1 H2 H3 H4 H5] Hc Hn Hprev. unfold core.
  intros [= Hh Hs Ht Hcur Hp].
  assert (Hd : ∀ r, deref r w' = deref r (set_isActive n true (set_isActive c false w))).
  { intros r. now apply deref_heap. }
  constructor.
  - intros r. rewrite Hs, Hh. unfold set_isActive. cbn.
    rewrite !length_alter. apply H1.
  - rewrite Hcur, Hs. exact Hn.
  - rewrite Hp, Hs. exact Hprev.
  - intros r. rewrite Hs, Hcur, Hd. intros Hr.
    destruct (decide (n = r)) as [->|Hne].
    + rewrite set_isActive_deref; [cbn; tauto|].
      unfold set_isActive. cbn. rewrite length_alter. now apply H1.
    + rewrite set_isActive_deref_ne by exact Hne.
      destruct (decide (c = r)) as [->|Hne'].
      * rewrite set_isActive_deref by now apply H1. cbn.
        split; [discriminate | congruence].
      * rewrite set_isActive_deref_ne by exact Hne'.
        rewrite (H4 r Hr), Hc. split; congruence.
  - intros t. rewrite Ht. intros Hin.
    rewrite (find_state_names (to t) w w'); [now apply H5 | exact Hs |].
    intros r _. rewrite Hd. now rewrite !set_isActive_name.
Qed.
End Core.

Section Preservation.
Implicit Types (w : World) (r c n p : nat).

Lemma Consistent_reported e w : Consistent w -> Consistent (reported e w).
Proof. apply Consistent_core. reflexivity. Qed.

Lemma rollback_core w p c :
  previousState (this w) = Some p ->
  currentState (this w) = Some c ->
  fst (rollback w) = inr tt
  ∧ core (exec rollback w)
    = (heap (set_isActive p true (set_isActive c false w)),
       states (this w), transitions (this w), Some p, None).
Proof.
  intros Hp Hc. unfold rollback. unmonad. rewrite Hp, Hc. cbn.
  split; reflexivity.
Qed.

Lemma Consistent_rollback w : Consistent w -> Consistent (exec rollback w).
Proof.
  intros HC.
  destruct (previousState (this w)) as [p|] eqn:Hp.
  - pose proof (previous_listed w HC p Hp) as Hin.
    pose proof (current_listed w HC) as Hcur.
    destruct (currentState (this w)) as [c|] eqn:Hc.
    + destruct (rollback_core w p c Hp Hc) as [_ Hcore].
      eapply (Consistent_switch w _ c p None); eauto. discriminate.
    + rewrite Hcur in Hin. now apply elem_of_nil in Hin.
  - unfold exec. now rewrite rollback_without_previous.
Qed.

(** What the [try] block of an immediate [transitionTo] does: it throws
    before any change, or it moves to the target. *)
Lemma transitionTo_try_cases stateName w :
  Consistent w ->
  (∃ e, transitionTo_try stateName 0 w = (inl e, w))
  ∨ (∃ c n, currentState (this w) = Some c
            ∧ find_state stateName w = Some n
            ∧ fst (transitionTo_try stateName 0 w) = inr tt
            ∧ core (exec (transitionTo_try stateName 0) w)
              = (heap (set_isActive n true (set_isActive c false w)),
                 states (this w), transitions (this w), Some n, Some c)).
Proof.
  intros HC. unfold transitionTo_try. unmonad.
  destruct (List.find (matches w stateName) (transitions (this w))) as [t|] eqn:Hf;
    [|left; eauto].
  pose proof (canTransition_pure t w) as Hpure.
  destruct (canTransition t w) as [[e|[|]] w1]; cbn in Hpure; subst w1;
    [left; eauto | | left; eauto].
  right.
  apply find_some in Hf as [Hin Hm].
  apply list_elem_of_In in Hin.
  unfold matches in Hm. apply andb_true_iff in Hm as [Hfrom Hto].
  apply bool_decide_eq_true in Hfrom. apply bool_decide_eq_true in Hto.
  unfold currentName in Hfrom.
  destruct (currentState (this w)) as [c|] eqn:Hc; [|discriminate].
  destruct (edges_closed w HC t Hin) as [n Hn]. rewrite Hto in Hn.
  exists c, n. split; [reflexivity|]. split; [exact Hn|].
  cbn. rewrite find_state_set_isActive, Hn.
  unfold triggerEvent, saveState, sendWebhook, EventManager.trigger, webhookUrl,
    set_isActive.
  unmonad.
  destruct (storage (this w)); cbn;
    destruct (config (this w) !! "webhookUrl") as [u|] eqn:Eu; cbn;
    try destruct (truthy u) eqn:Et; cbn;
    destruct (eventManager (this w) !! ("transitionTo" +:+ stateName)); cbn;
    rewrite ?Eu; cbn; rewrite ?Et; cbn;
    split; reflexivity || (unfold core; cbn; now rewrite ?Hc).
Qed.

Lemma Consistent_transitionTo stateName w :
  Consistent w -> Consistent (exec (transitionTo stateName 0) w).
Proof.
  intros HC.
  destruct (transitionTo_try_cases stateName w HC)
    as [[e He] | (c & n & Hc & Hn & Hok & Hcore)].
  - unfold exec. rewrite (transitionTo_caught _ _ _ _ _ He).
    apply Consistent_rollback, Consistent_reported, HC.
  - assert (Heq : exec (transitionTo stateName 0) w
                  = exec (transitionTo_try stateName 0) w).
    { unfold exec, transitionTo, try_catch.
      destruct (transitionTo_try stateName 0 w) as [[e|[]] w1]; [discriminate|reflexivity]. }
    rewrite Heq.
    apply (Consistent_switch w _ c n (Some c)); auto.
    + now apply find_state_listed in Hn.
    + intros p [= <-]. pose proof (current_listed w HC) as H. now rewrite Hc in H.
Qed.
End Preservation.

Section Growth.
Implicit Types (w : World) (r c n p : nat).

(** [addState(new State(nm))] allocates the object, lists it, and makes it
    the active current state when there was none. *)
Lemma addNewState_core nm w :
  fst (step (OpAddState nm) w) = inr tt
  ∧ core (exec (step (OpAddState nm)) w) =
      match currentState (this w) with
      | None =>
          (alter (fun s => mkState (name s) true) (length (heap w))
             (heap w ++ [newState nm]),
           states (this w) ++ [length (heap w)], transitions (this w),
           Some (length (heap w)), previousState (this w))
      | Some c =>
          (heap w ++ [newState nm],
           states (this w) ++ [length (heap w)], transitions (this w),
           Some c, previousState (this w))
      end.
Proof.
  unfold step, createState, addState, core. unmonad.
  destruct (currentState (this w)) as [c|] eqn:Hc; cbn;
    [rewrite ?Hc; split; reflexivity|].
  rewrite saveState_spec. unfold set_isActive. cbn.
  destruct (storage (this w)); split; reflexivity.
Qed.

Lemma find_state_grow stateName w w' x r n :
  heap w' !! r = Some x ->
  (∀ r', r' ∈ states (this w) -> name (deref r' w') = name (deref r' w)) ->
  states (this w') = states (this w) ++ [r] ->
  find_state stateName w = Some n ->
  find_state stateName w' = Some n.
Proof.
  intros _ Hn Hs Hf. unfold find_state in *. rewrite Hs.
  apply find_app_Some. rewrite <- Hf.
  apply find_ext_in. intros r' Hr'. now rewrite (Hn r' Hr').
Qed.

Lemma Consistent_addNewState nm w :
  Consistent w -> Consistent (exec (step (OpAddState nm)) w).
Proof.
  intros [H1 H2 H3 H4 H5].
  destruct (addNewState_core nm w) as [_ Hcore].
  set (w' := exec (step (OpAddState nm)) w) in *. clearbody w'.
  set (r := length (heap w)) in *.
  assert (Hfresh : ∀ r', r' ∈ states (this w) -> r' ≠ r).
  { intros r' Hr'. specialize (H1 r' Hr'). subst r. lia. }
  destruct (currentState (this w)) as [c|] eqn:Hc;
    unfold core in Hcore; injection Hcore as Hh Hs Ht Hcur Hp.
  - (* a current state exists: the new object is only listed *)
    assert (Hold : ∀ r', r' ∈ states (this w) -> deref r' w' = deref r' w).
    { intros r' Hr'. unfold deref. rewrite Hh.
      now rewrite lookup_app_l by (apply H1, Hr'). }
    assert (Hnew : deref r w' = newState nm).
    { unfold deref. rewrite Hh. subst r. now rewrite list_lookup_middle. }
    constructor.
    + intros r'. rewrite Hs, Hh, length_app. cbn.
      intros [Hr'| ->%list_elem_of_singleton]%elem_of_app; [apply H1 in Hr'|]; fold r; lia.
    + rewrite Hcur, Hs. apply elem_of_app. now left.
    + intros p. rewrite Hp, Hs. intros Hpp. apply elem_of_app. left. now apply H3.
    + intros r'. rewrite Hs, Hcur.
      intros [Hr'| ->%list_elem_of_singleton]%elem_of_app.
      * rewrite (Hold r' Hr'). now apply H4.
      * rewrite Hnew. cbn. split; [discriminate|].
        intros [= ->]. exfalso. now apply (Hfresh r H2).
    + intros t. rewrite Ht. intros Ht'.
      destruct (H5 t Ht') as [n Hn]. exists n.
      eapply (find_state_grow (to t) w w' (newState nm) r); eauto.
      * rewrite Hh. subst r. now rewrite list_lookup_middle.
      * intros r' Hr'. now rewrite (Hold r' Hr').
  - (* no current state: nothing was listed, the new object takes over *)
    rewrite H2 in *. cbn in Hs.
    assert (Hnew : deref r w' = mkState nm true).
    { unfold deref. rewrite Hh, list_lookup_alter_eq. subst r.
      now rewrite list_lookup_middle. }
    constructor.
    + intros r'. rewrite Hs, Hh, length_alter, length_app. cbn.
      intros ->%list_elem_of_singleton. fold r. lia.
    + rewrite Hcur, Hs. apply list_elem_of_here.
    + intros p. rewrite Hp. intros Hpp. apply H3 in Hpp. now apply elem_of_nil in Hpp.
    + intros r'. rewrite Hs, Hcur. intros ->%list_elem_of_singleton.
      rewrite Hnew. cbn. tauto.
    + intros t. rewrite Ht. intros Ht'.
      destruct (H5 t Ht') as [n Hn]. unfold find_state in Hn.
      rewrite H2 in Hn. discriminate.
Qed.

Lemma Consistent_addTransition t w :
  is_Some (find_state (to t) w) ->
  Consistent w -> Consistent (exec (addTransition t) w).
Proof.
  intros Ht [H1 H2 H3 H4 H5].
  constructor; try assumption.
  intros t'. unfold addTransition. unmonad.
  intros [Hin| ->%list_elem_of_singleton]%elem_of_app; [now apply H5 | exact Ht].
Qed.

Lemma Consistent_step op w :
  admissible op w -> Consistent w -> Consistent (exec (step op) w).
Proof.
  destruct op as [nm | t | nm rule | e | s | ]; cbn [admissible step]; intros Ha HC.
  - now apply Consistent_addNewState.
  - now apply Consistent_addTransition.
  - revert HC. apply Consistent_core. reflexivity.
  - revert HC. apply Consistent_core. reflexivity.
  - now apply Consistent_transitionTo.
  - now apply Consistent_rollback.
Qed.

Lemma Consistent_runOps ops w :
  admissibleAll ops w -> Consistent w -> Consistent (runOps ops w).
Proof.
  revert w. induction ops as [|op ops IH]; intros w; cbn; [trivial|].
  intros [Ha Hall] HC. apply IH; [exact Hall|]. now apply Consistent_step.
Qed.

Lemma Consistent_empty cfg st : Consistent (emptyWorld (emptyManager cfg st)).
Proof.
  constructor; cbn; try reflexivity.
  - intros r Hr. now apply elem_of_nil in Hr.
  - discriminate.
  - intros r Hr. now apply elem_of_nil in Hr.
  - intros t Ht. now apply elem_of_nil in Ht.
Qed.

Lemma filter_none {A} (P : A -> Prop) `{∀ x, Decision (P x)} (l : list A) :
  (∀ x, x ∈ l -> ¬ P x) -> filter P l = [].
Proof.
  induction l as [|a l IH]; intros HP; [reflexivity|].
  rewrite filter_cons_False by apply HP, list_elem_of_here.
  apply IH. intros x Hx. apply HP. now apply list_elem_of_further.
Qed.

Lemma filter_unique {A} `{EqDecision A} (P : A -> Prop) `{∀ x, Decision (P x)}
    (l : list A) (c : A) :
  NoDup l -> c ∈ l -> (∀ x, x ∈ l -> (P x ↔ x = c)) -> filter P l = [c].
Proof.
  induction l as [|a l IH]; intros Hnd Hc HP; [now apply elem_of_nil in Hc|].
  apply NoDup_cons in Hnd as [Ha Hnd].
  destruct (decide (a = c)) as [->|Hne].
  - rewrite filter_cons_True by (apply HP; [apply list_elem_of_here | reflexivity]).
    f_equal. apply filter_none. intros x Hx HPx.
    apply HP in HPx; [|now apply list_elem_of_further]. now subst.
  - rewrite filter_cons_False
      by (intros HPa; apply HP in HPa; [contradiction | apply list_elem_of_here]).
    apply IH; [exact Hnd | |].
    + apply elem_of_cons in Hc as [->|Hc]; [contradiction | exact Hc].
    + intros x Hx. apply HP. now apply list_elem_of_further.
Qed.

(** A consistent world has no listed State at all, or exactly one active
    State, the current one. *)
Lemma Consistent_single_active w :
  Consistent w ->
  (states (this w) = [] ∧ currentState (this w) = None ∧ activeStates w = [])
  ∨ (∃ c, currentState (this w) = Some c ∧ activeStates w = [c]).
Proof.
  intros [H1 H2 H3 H4 H5]. unfold activeStates.
  destruct (currentState (this w)) as [c|] eqn:Hc.
  - right. exists c. split; [reflexivity|].
    apply filter_unique.
    + apply NoDup_remove_dups.
    + now apply elem_of_remove_dups.
    + intros r Hr. apply (proj1 (elem_of_remove_dups _ _)) in Hr.
      rewrite (H4 r Hr). split; congruence.
  - left. rewrite H2. repeat split.
Qed.
End Growth.

Section SingleActive.
Implicit Types (w : World).

Lemma rollback_states w : states (this (exec rollback w)) = states (this w).
Proof.
  unfold rollback, set_isActive. unmonad.
  destruct (previousState (this w)); [|reflexivity].
  now destruct (currentState (this w)).
Qed.

Lemma transitionTo_states stateName w :
  Consistent w ->
  states (this (exec (transitionTo stateName 0) w)) = states (this w).
Proof.
  intros HC.
  destruct (transitionTo_try_cases stateName w HC)
    as [[e He] | (c & n & Hc & Hn & Hok & Hcore)].
  - unfold exec. rewrite (transitionTo_caught _ _ _ _ _ He).
    apply (rollback_states (reported e w)).
  - unfold exec, transitionTo, try_catch.
    unfold exec, core in Hcore.
    destruct (transitionTo_try stateName 0 w) as [[e|[]] w1]; [discriminate|].
    now injection Hcore.
Qed.
End SingleActive.

(** Around an immediate [transitionTo] on a consistent world. *)
Lemma single_active_around stateName w :
  Consistent w ->
  let after := exec (transitionTo stateName 0) w in
  (states (this w) = [] ∧ activeStates w = []
   ∧ states (this after) = [] ∧ activeStates after = [])
  ∨ (∃ c c', currentState (this w) = Some c ∧ activeStates w = [c]
             ∧ currentState (this after) = Some c' ∧ activeStates after = [c']).
Proof.
  intros HB after.
  assert (HA : Consistent after) by now apply Consistent_transitionTo.
  assert (Hst : states (this after) = states (this w))
    by now apply transitionTo_states.
  destruct (Consistent_single_active w HB) as [(Hs & Hc & Ha) | (c & Hc & Ha)];
    destruct (Consistent_single_active after HA) as [(Hs' & Hc' & Ha') | (c' & Hc' & Ha')].
  - left. repeat split; assumption.
  - exfalso. pose proof (current_listed after HA) as H.
    rewrite Hc', Hst, Hs in H. now apply elem_of_nil in H.
  - exfalso. pose proof (current_listed w HB) as H.
    rewrite Hc, <- Hst, Hs' in H. now apply elem_of_nil in H.
  - right. exists c, c'. repeat split; assumption.
Qed.

(** The workflow of the test suite is built by such calls, so it is
    consistent, and stays so under further calls. *)
Lemma workflow_as_calls :
  workflow = runOps workflowOps (emptyWorld (emptyManager exampleConfig (MemoryStorage ∅))).
Proof. vm_compute. reflexivity. Qed.

Lemma Consistent_workflow ops :
  admissibleAll ops workflow -> Consistent (runOps ops workflow).
Proof.
  intros Hadm. apply Consistent_runOps; [exact Hadm|].
  rewrite workflow_as_calls.
  apply Consistent_runOps; [|apply Consistent_empty].
  cbn [admissibleAll workflowOps admissible]. repeat split.
  - exists 1%nat. vm_compute. reflexivity.
  - exists 2%nat. vm_compute. reflexivity.
Qed.

Lemma workflow_single_active ops stateName :
  admissibleAll ops workflow ->
  let before := runOps ops workflow in
  let after := exec (transitionTo stateName 0) before in
  (states (this before) = [] ∧ activeStates before = []
   ∧ states (this after) = [] ∧ activeStates after = [])
  ∨ (∃ c c', currentState (this before) = Some c ∧ activeStates before = [c]
             ∧ currentState (this after) = Some c' ∧ activeStates after = [c']).
Proof. intros Hadm. apply single_active_around, Consistent_workflow, Hadm. Qed.

(** Before any State is added none is active, also around a [transitionTo];
    and between a delayed [transitionTo] and the firing of its timer no State
    of the test workflow is active. *)
Lemma single_active_counterexample :
  ¬ exactlyOneActive bareManager
  ∧ ¬ exactlyOneActive (exec (transitionTo "in_progress" 0) bareManager)
  ∧ exactlyOneActive workflow
  ∧ ¬ exactlyOneActive (exec (transitionTo "in_progress" 1000) workflow).
Proof.
  unfold exactlyOneActive.
  repeat split; vm_compute; congruence.
Qed.

(** C1 (invariant I1, amended): take a new manager and any sequence of
    [addState] (of newly created States), [addTransition] (to a name some
    listed State carries), [addRule], [addEvent], immediate [transitionTo] and
    [rollback].  Before and after a further immediate [transitionTo], either
    no State has been added and none is active, or exactly one State of the
    list is active, and it is the current one. *)
Theorem single_active_state cfg st ops stateName :
  let w0 := emptyWorld (emptyManager cfg st) in
  admissibleAll ops w0 ->
  let before := runOps ops w0 in
  let after := exec (transitionTo stateName 0) before in
  (states (this before) = [] ∧ activeStates before = []
   ∧ states (this after) = [] ∧ activeStates after = [])
  ∨ (∃ c c', currentState (this before) = Some c ∧ activeStates before = [c]
             ∧ currentState (this after) = Some c' ∧ activeStates after = [c']).
Proof.
  intros w0 Hadm before after.
  apply single_active_around.
  apply Consistent_runOps; [exact Hadm | apply Consistent_empty].
Qed.

Lemma single_active_state_witness :
  let w0 := emptyWorld (emptyManager exampleConfig (MemoryStorage ∅)) in
  activeStates (runOps exampleOps w0) = [0%nat]
  ∧ activeStates (exec (transitionTo "in_progress" 0) (runOps exampleOps w0)) = [1%nat].
Proof.
  intros w0.
  assert (Hadm : admissibleAll exampleOps w0).
  { cbn [admissibleAll exampleOps admissible]. repeat split.
    exists 1%nat. vm_compute. reflexivity. }
  destruct (single_active_state exampleConfig (MemoryStorage ∅) exampleOps "in_progress" Hadm)
    as [(Hs & _) | (c & c' & Hc & Ha & Hc' & Ha')].
  - exfalso. revert Hs. vm_compute. discriminate.
  - fold w0 in Hc, Ha, Hc', Ha'.
    assert (E : currentState (this (runOps exampleOps w0)) = Some 0%nat)
      by (vm_compute; reflexivity).
    assert (E' : currentState (this (exec (transitionTo "in_progress" 0)
                                       (runOps exampleOps w0))) = Some 1%nat)
      by (vm_compute; reflexivity).
    rewrite Hc in E. rewrite Hc' in E'.
    injection E as ->. injection E' as ->.
    split; assumption.
Defined.

(** ** The event loop and the timer callback *)

Lemma earliest_elem (l : list Timeout) t : earliest l = Some t -> t ∈ l.
Proof.
  revert t. induction l as [|a l IH]; cbn; [discriminate|]. intros t.
  destruct (earliest l) as [t'|].
  - destruct (expiry t' <? expiry a); intros [= <-].
    + now apply list_elem_of_further, IH.
    + apply list_elem_of_here.
  - intros [= <-]. apply list_elem_of_here.
Qed.

Lemma nextDue_elem deadline (l : list Timeout) t :
  nextDue deadline l = Some t -> t ∈ l ∧ expiry t ≤ deadline.
Proof.
  unfold nextDue. intros H. apply earliest_elem in H.
  apply list_elem_of_filter in H. tauto.
Qed.

(** The callback never throws, arms or disarms nothing, never writes
    [previousState] and never clears an [isActive] flag: it only activates the
    State it finds under the name and makes it current. *)
Lemma onTimeout_spec stateName w :
  fst (onTimeout stateName w) = inr tt
  ∧ loop (exec (onTimeout stateName) w) = loop w
  ∧ previousState (this (exec (onTimeout stateName) w)) = previousState (this w)
  ∧ match find_state stateName w with
    | Some n =>
        heap (exec (onTimeout stateName) w) = heap (set_isActive n true w)
        ∧ currentState (this (exec (onTimeout stateName) w)) = Some n
    | None => exec (onTimeout stateName) w = w
    end.
Proof.
  unfold onTimeout. unmonad.
  destruct (find_state stateName w) as [n|]; [|repeat split; reflexivity].
  unfold triggerEvent, saveState, sendWebhook, EventManager.trigger, webhookUrl,
    set_isActive.
  unmonad.
  destruct (storage (this w)); cbn;
    destruct (config (this w) !! "webhookUrl") as [u|] eqn:Eu; cbn;
    try destruct (truthy u) eqn:Et; cbn;
    destruct (eventManager (this w) !! ("transitionTo" +:+ stateName)); cbn;
    rewrite ?Eu; cbn; rewrite ?Et; cbn;
    repeat split; reflexivity.
Qed.

(** With one unit of fuel per armed timer the loop fires every timer that is
    due. *)
Lemma runLoop_fires_all fuel deadline w :
  (length (loop w) ≤ fuel)%nat ->
  nextDue deadline (loop (runLoop fuel deadline w)) = None.
Proof.
  revert w. induction fuel as [|fuel IH]; intros w Hlen; cbn [runLoop].
  - destruct (loop w); [reflexivity | cbn in Hlen; lia].
  - destruct (nextDue deadline (loop w)) as [t|] eqn:E; [|exact E].
    apply IH.
    destruct (onTimeout_spec (target t)
                (set_clock (Z.max (clock w) (expiry t))
                   (set_loop (filter (fun t' => handle t' ≠ handle t) (loop w)) w)))
      as (_ & Hloop & _).
    unfold exec in Hloop. rewrite Hloop. cbn.
    apply nextDue_elem in E as [Hin _].
    assert (length (filter (fun t' => handle t' ≠ handle t) (loop w)) < length (loop w))%nat
      by (apply (length_filter_lt _ _ t); [exact Hin | intros H; now apply H]).
    lia.
Qed.

Lemma advance_fires_all ms w : nextDue (clock w + ms) (loop (advance ms w)) = None.
Proof. unfold advance. cbn. now apply runLoop_fires_all. Qed.

(** Two calls of [setTimer] for one name leave two more armed timers for it,
    whatever was armed before. *)
Lemma setTimer_twice_armed stateName d1 d2 w :
  length (pendingFor stateName (exec (setTimer stateName d1;; setTimer stateName d2) w))
  = (length (pendingFor stateName w) + 2)%nat.
Proof.
  unfold pendingFor, setTimer, setTimeout. unmonad.
  rewrite !filter_app, !length_app.
  rewrite !filter_cons_True by reflexivity. cbn. lia.
Qed.

(** ** An edge to a name no State carries, in general *)

Lemma omap_callbacks (l : list nat) :
  omap (fun e => match e with HandleError err => Some err | _ => None end)
       (map CallbackInvoked l) = [].
Proof. induction l as [|a l IH]; [reflexivity | exact IH]. Qed.

(** The passing edge is taken although the target is missing: the current
    State is deactivated, nothing else moves, nothing is thrown and nothing
    reaches the error handler. *)
Lemma transitionTo_unknown_target stateName w t c :
  List.find (matches w stateName) (transitions (this w)) = Some t ->
  canTransition t w = (inr true, w) ->
  currentState (this w) = Some c ->
  find_state stateName w = None ->
  fst (transitionTo stateName 0 w) = inr tt
  ∧ core (exec (transitionTo stateName 0) w)
    = (heap (set_isActive c false w), states (this w), transitions (this w),
       Some c, previousState (this w))
  ∧ handledErrors (exec (transitionTo stateName 0) w) = handledErrors w.
Proof.
  intros Hf Hg Hc Hn.
  unfold transitionTo, try_catch, transitionTo_try. unmonad.
  rewrite Hf, Hg, Hc. cbn.
  rewrite find_state_set_isActive, Hn.
  unfold triggerEvent, sendWebhook, EventManager.trigger, webhookUrl, set_isActive,
    handledErrors, core.
  unmonad.
  destruct (config (this w) !! "webhookUrl") as [u|] eqn:Eu; cbn;
    try destruct (truthy u) eqn:Et; cbn;
    destruct (eventManager (this w) !! ("transitionTo" +:+ stateName)); cbn;
    rewrite ?Eu; cbn; rewrite ?Et; cbn; rewrite ?Hc;
    (split; [reflexivity|]); (split; [reflexivity|]);
    rewrite ?omap_app, ?omap_callbacks; cbn; now rewrite ?app_nil_r.
Qed.

(** * Further properties of the code *)

(** ** The configuration and the rule engine *)

(** Closed facts about [plainKey] are decided by evaluation. *)
Lemma plainKey_decide k : bool_decide (plainKey k) = true -> plainKey k.
Proof. intros H. now apply bool_decide_eq_true in H. Defined.

(** X2: [ConfigManager], for option names that are not property names of
    [Object.prototype]: an option set in the custom configuration hides the
    default, an option absent there falls back to the default, and [set]
    overrides both for its key only. *)
Theorem ConfigManager_precedence defaultConfig customConfig key key' value :
  plainKey key -> plainKey key' ->
  ConfigManager.get key (ConfigManager.new defaultConfig customConfig)
    = match customConfig !! key with
      | Some v => Some v
      | None => defaultConfig !! key
      end
  ∧ ConfigManager.get key
      (ConfigManager.set key value (ConfigManager.new defaultConfig customConfig))
    = Some value
  ∧ (key ≠ key' ->
       ConfigManager.get key'
         (ConfigManager.set key value (ConfigManager.new defaultConfig customConfig))
       = ConfigManager.get key' (ConfigManager.new defaultConfig customConfig)).
Proof.
  intros _ _.
  unfold ConfigManager.get, ConfigManager.set, ConfigManager.new. repeat split.
  - destruct (customConfig !! key) as [v|] eqn:E.
    + now apply lookup_union_Some_l.
    + now rewrite lookup_union_r.
  - apply lookup_insert_eq.
  - intros Hne. now apply lookup_insert_ne.
Qed.

Lemma ConfigManager_precedence_witness :
  plainKey "version" ∧ plainKey "storageType"
  ∧ ConfigManager.get "storageType"
      (ConfigManager.set "version" "2.0.0"
         (ConfigManager.new {[ "storageType" := "redis" ]} exampleConfig))
    = Some "memory".
Proof.
  assert (Hv : plainKey "version") by (apply plainKey_decide; vm_compute; reflexivity).
  assert (Hs : plainKey "storageType") by (apply plainKey_decide; vm_compute; reflexivity).
  split; [exact Hv | split; [exact Hs |]].
  destruct (ConfigManager_precedence {[ "storageType" := "redis" ]} exampleConfig
              "version" "storageType" "2.0.0" Hv Hs) as (_ & _ & H).
  rewrite H by discriminate.
  destruct (ConfigManager_precedence {[ "storageType" := "redis" ]} exampleConfig
              "storageType" "storageType" "2.0.0" Hs Hs) as (H1 & _).
  rewrite H1. vm_compute. reflexivity.
Defined.



(** ** Translator *)



(** ** Logger *)

Lemma indexOf_lower x l : -1 ≤ Logger.indexOf x l.
Proof.
  induction l as [|y l IH]; cbn; [lia|].
  case_bool_decide; [lia|].
  destruct (Logger.indexOf x l <? 0) eqn:E; [lia|].
  apply Z.ltb_ge in E. lia.
Qed.

Lemma indexOf_absent x l : x ∉ l -> Logger.indexOf x l = -1.
Proof.
  induction l as [|y l IH]; cbn; [reflexivity|]. intros Hx.
  apply not_elem_of_cons in Hx as [Hne Hx].
  rewrite bool_decide_eq_false_2 by congruence.
  now rewrite (IH Hx).
Qed.

Lemma indexOf_present x l : x ∈ l -> 0 ≤ Logger.indexOf x l.
Proof.
  induction l as [|y l IH]; cbn; intros Hx; [now apply elem_of_nil in Hx|].
  case_bool_decide as Hy; [lia|].
  apply elem_of_cons in Hx as [->|Hx]; [congruence|].
  specialize (IH Hx).
  destruct (Logger.indexOf x l <? 0) eqn:E; [apply Z.ltb_lt in E; lia | lia].
Qed.

(** X5: [Logger]: with a threshold among info < warn < error, a message is
    printed exactly when its level is not below the threshold, as
    "[LEVEL] message".  A threshold that is not one of the three names lets
    every message through, and a level that is not one of them is printed
    only then. *)
Theorem Logger_threshold message level logLevel :
  (Logger.shouldLog "info" "info" = true
   ∧ Logger.shouldLog "warn" "info" = true
   ∧ Logger.shouldLog "error" "info" = true
   ∧ Logger.shouldLog "info" "warn" = false
   ∧ Logger.shouldLog "warn" "warn" = true
   ∧ Logger.shouldLog "error" "warn" = true
   ∧ Logger.shouldLog "info" "error" = false
   ∧ Logger.shouldLog "warn" "error" = false
   ∧ Logger.shouldLog "error" "error" = true)
  ∧ (logLevel ∉ Logger.levels -> Logger.shouldLog level logLevel = true)
  ∧ (level ∉ Logger.levels -> logLevel ∈ Logger.levels ->
       Logger.log logLevel message level = None)
  ∧ (Logger.shouldLog "warn" logLevel = true ->
       Logger.log logLevel message "warn" = Some ("[WARN] " +:+ message))
  ∧ (Logger.shouldLog level logLevel = false -> Logger.log logLevel message level = None).
Proof.
  split; [vm_compute; repeat split; reflexivity|].
  unfold Logger.log, Logger.shouldLog. repeat split.
  - intros H. rewrite (indexOf_absent _ _ H). apply Z.leb_le, indexOf_lower.
  - intros Hl Hll. rewrite (indexOf_absent _ _ Hl).
    pose proof (indexOf_present _ _ Hll) as H0.
    destruct (Logger.indexOf logLevel Logger.levels <=? -1) eqn:E; [|reflexivity].
    apply Z.leb_le in E. lia.
  - intros ->. reflexivity.
  - intros ->. reflexivity.
Qed.

Lemma Logger_threshold_witness :
  Logger.log "debug" "started" "info" = Some "[INFO] started"
  ∧ Logger.log "warn" "started" "verbose" = None.
Proof.
  destruct (Logger_threshold "started" "verbose" "warn") as (_ & _ & H & _).
  split; [vm_compute; reflexivity|].
  apply H.
  - vm_compute. intros H1. repeat (apply elem_of_cons in H1 as [H1|H1]; [discriminate|]).
    now apply elem_of_nil in H1.
  - apply list_elem_of_further, list_elem_of_here.
Defined.

(** ** Authorization *)

Lemma find_app_None {A} (f : A -> bool) (l l' : list A) :
  List.find f l = None -> List.find f (l ++ l') = List.find f l'.
Proof.
  induction l as [|a l IH]; [reflexivity|]. cbn.
  destruct (f a); [discriminate | exact IH].
Qed.

(** X6: [AuthManager]: [authorize] fails while nobody is authenticated;
    [authenticate] fails for an id nobody was added with and then keeps the
    manager as it was; after authenticating a user, [authorize] holds exactly
    when one of the asked roles is among the user's roles (never for no
    roles). *)
Theorem AuthManager_authorize userId user rs x x' :
  AuthManager.authorize rs AuthManager.new = inl AuthManager.NoUserAuthenticated
  ∧ AuthManager.authenticate userId AuthManager.new = inl AuthManager.UserNotFound
  ∧ (AuthManager.authenticate userId x = inr x' ->
       AuthManager.currentUser x' = Some user ->
       AuthManager.users x' = AuthManager.users x
       ∧ user ∈ AuthManager.users x
       ∧ AuthManager.id user = userId
       ∧ AuthManager.authorize [] x' = inr false
       ∧ ∃ b, AuthManager.authorize rs x' = inr b
              ∧ (b = true ↔ ∃ role, role ∈ rs ∧ role ∈ AuthManager.roles user)).
Proof.
  split; [reflexivity|]. split; [reflexivity|].
  unfold AuthManager.authenticate, AuthManager.authorize.
  destruct (List.find _ (AuthManager.users x)) as [u|] eqn:Hf; [|discriminate].
  intros [= <-]. cbn. intros [= ->].
  apply find_some in Hf as [Hin Hid].
  apply bool_decide_eq_true in Hid. apply list_elem_of_In in Hin.
  repeat split; try assumption.
  eexists. split; [reflexivity|].
  rewrite existsb_exists. split.
  - intros (role & Hr & Hb). exists role.
    apply bool_decide_eq_true in Hb. apply list_elem_of_In in Hr. auto.
  - intros (role & Hr & Hu). exists role. split.
    + now apply list_elem_of_In.
    + now apply bool_decide_eq_true.
Qed.

Lemma AuthManager_authorize_witness :
  let x := AuthManager.addUser (AuthManager.mkUser "user1" ["admin"]) AuthManager.new in
  AuthManager.authorize []
    (AuthManager.mk (AuthManager.users x) (Some (AuthManager.mkUser "user1" ["admin"])))
  = inr false.
Proof.
  intros x.
  destruct (AuthManager_authorize "user1" (AuthManager.mkUser "user1" ["admin"]) ["admin"] x
              (AuthManager.mk (AuthManager.users x)
                 (Some (AuthManager.mkUser "user1" ["admin"])))) as (_ & _ & H).
  destruct H as (_ & _ & _ & H & _); [vm_compute; reflexivity | reflexivity | exact H].
Defined.

(** X7: [AuthManager]: the user added first under an id is the one
    [authenticate] selects; adding further users, with the same id or another,
    does not change whom it selects. *)
Theorem AuthManager_first_user_wins userId user x x' :
  AuthManager.authenticate userId x = inr x' ->
  AuthManager.authenticate userId (AuthManager.addUser user x)
    = inr (AuthManager.mk (AuthManager.users x ++ [user]) (AuthManager.currentUser x')).
Proof.
  unfold AuthManager.authenticate, AuthManager.addUser. cbn.
  destruct (List.find _ (AuthManager.users x)) as [u|] eqn:Hf; [|discriminate].
  intros [= <-]. cbn.
  now rewrite (find_app_Some _ _ [user] _ Hf).
Qed.

Lemma AuthManager_first_user_wins_witness :
  let x := AuthManager.addUser (AuthManager.mkUser "user1" ["admin"]) AuthManager.new in
  AuthManager.authenticate "user1" (AuthManager.addUser (AuthManager.mkUser "user1" ["guest"]) x)
  = inr (AuthManager.mk [AuthManager.mkUser "user1" ["admin"]; AuthManager.mkUser "user1" ["guest"]]
           (Some (AuthManager.mkUser "user1" ["admin"]))).
Proof.
  intros x.
  apply (AuthManager_first_user_wins "user1" (AuthManager.mkUser "user1" ["guest"]) x
           (AuthManager.mk (AuthManager.users x) (Some (AuthManager.mkUser "user1" ["admin"])))).
  vm_compute. reflexivity.
Defined.

(** X8: A user added under an id nobody had can be authenticated at once. *)
Theorem AuthManager_addUser_authenticate user x :
  (∀ u, u ∈ AuthManager.users x -> AuthManager.id u ≠ AuthManager.id user) ->
  AuthManager.authenticate (AuthManager.id user) (AuthManager.addUser user x)
    = inr (AuthManager.mk (AuthManager.users x ++ [user]) (Some user))
  ∧ AuthManager.authenticate (AuthManager.id user) x = inl AuthManager.UserNotFound.
Proof.
  intros Hfresh.
  assert (Hnone : List.find (fun u => bool_decide (AuthManager.id u = AuthManager.id user))
                    (AuthManager.users x) = None).
  { destruct (List.find _ (AuthManager.users x)) as [u|] eqn:Hf; [|reflexivity].
    apply find_some in Hf as [Hin Hid]. apply bool_decide_eq_true in Hid.
    apply list_elem_of_In in Hin. now destruct (Hfresh u Hin). }
  unfold AuthManager.authenticate, AuthManager.addUser. cbn.
  rewrite (find_app_None _ _ [user] Hnone), Hnone. cbn.
  now rewrite bool_decide_eq_true_2.
Qed.

Lemma AuthManager_addUser_authenticate_witness :
  AuthManager.authenticate "user1"
    (AuthManager.addUser (AuthManager.mkUser "user1" ["admin"]) AuthManager.new)
  = inr (AuthManager.mk [AuthManager.mkUser "user1" ["admin"]]
           (Some (AuthManager.mkUser "user1" ["admin"]))).
Proof.
  refine (proj1 (AuthManager_addUser_authenticate
                   (AuthManager.mkUser "user1" ["admin"]) AuthManager.new _)).
  intros u Hu. now apply elem_of_nil in Hu.
Defined.

(** ** Plugins *)

Lemma forEach_app {A} (f : A -> M unit) (l l' : list A) w w1 :
  forEach f l w = (inr tt, w1) ->
  forEach f (l ++ l') w = forEach f l' w1.
Proof.
  revert w. induction l as [|a l IH]; intros w; cbn.
  - unmonad. now intros [= ->].
  - unmonad. destruct (f a w) as [[e|[]] w2]; [discriminate|]. apply IH.
Qed.

(** X9: [PluginManager]: the plugins are initialized in the order of their
    registration, each on the manager the previous ones left; when one throws,
    the error goes to the caller, the later plugins are not initialized and
    what the earlier ones did stays. *)
Theorem PluginManager_initializePlugins plugins plugin later w w1 :
  PluginManager.initializePlugins plugins w = (inr tt, w1) ->
  PluginManager.initializePlugins (PluginManager.register plugin plugins) w
    = (fst (plugin w1), snd (plugin w1))
  ∧ (∀ e w2, plugin w1 = (inl e, w2) ->
       PluginManager.initializePlugins (plugins ++ plugin :: later) w = (inl e, w2)).
Proof.
  unfold PluginManager.initializePlugins, PluginManager.register,
    PluginManager.Plugin in *.
  intros H. split.
  - rewrite (forEach_app _ _ [plugin] _ _ H). cbn. unmonad.
    now destruct (plugin w1) as [[e|[]] w2].
  - intros e w2 Hp. rewrite (forEach_app _ _ (plugin :: later) _ _ H). cbn. unmonad.
    now rewrite Hp.
Qed.

Lemma PluginManager_initializePlugins_witness :
  let broken : M unit := bind (evaluateRule "missing") (fun _ => ret tt) in
  PluginManager.initializePlugins
    ([addRule "canStart" false] ++ broken :: [addRule "canStart" true]) constructed
  = (inl (RuleNotFound "missing"), exec (addRule "canStart" false) constructed).
Proof.
  intros broken.
  refine (proj2 (PluginManager_initializePlugins [addRule "canStart" false] broken
                   [addRule "canStart" true] constructed
                   (exec (addRule "canStart" false) constructed) _) _ _ _).
  - reflexivity.
  - vm_compute. reflexivity.
Defined.

(** ** Visualization *)

Lemma string_app_assoc (a b c : string) : (a +:+ b) +:+ c = a +:+ (b +:+ c).
Proof.
  induction a as [|ch a IH]; [reflexivity|].
  change (String ch ((a +:+ b) +:+ c) = String ch (a +:+ (b +:+ c))).
  now rewrite IH.
Qed.

Lemma fold_left_append {A} (f : A -> string) (l : list A) (g : string) :
  fold_left (fun acc x => acc +:+ f x) l g
  = g +:+ foldr (fun x acc => f x +:+ acc) "" l.
Proof.
  revert g. induction l as [|x l IH]; intros g; cbn.
  - induction g as [|ch g IHg]; [reflexivity|].
    change (String ch g = String ch (g +:+ "")). now rewrite <- IHg.
  - rewrite IH. apply string_app_assoc.
Qed.

(** X10: [WorkflowVisualizer.generateGraph]: the text is the header line, one line
    per State in the order of the array, one line per edge in the order of the
    array, and the closing brace; hence the line of every State and of every
    edge occurs in it, and without States and edges the graph is the empty
    digraph. *)
Theorem generateGraph_lines (conditionToString : Condition -> string)
    (sts : list State) (trs : list Transition) :
  let header := "digraph Workflow {" +:+ WorkflowVisualizer.nl in
  let stateLines := foldr (fun s acc => WorkflowVisualizer.stateLine s +:+ acc) "" in
  let edgeLines :=
    foldr (fun t acc => WorkflowVisualizer.transitionLine conditionToString t +:+ acc) "" in
  WorkflowVisualizer.generateGraph conditionToString sts trs
    = header +:+ stateLines sts +:+ edgeLines trs +:+ "}"
  ∧ (∀ s, s ∈ sts -> ∃ pre post,
        WorkflowVisualizer.generateGraph conditionToString sts trs
        = pre +:+ WorkflowVisualizer.stateLine s +:+ post)
  ∧ (∀ t, t ∈ trs -> ∃ pre post,
        WorkflowVisualizer.generateGraph conditionToString sts trs
        = pre +:+ WorkflowVisualizer.transitionLine conditionToString t +:+ post)
  ∧ WorkflowVisualizer.generateGraph conditionToString [] [] = header +:+ "}".
Proof.
  intros header stateLines edgeLines.
  assert (Hg : WorkflowVisualizer.generateGraph conditionToString sts trs
               = header +:+ stateLines sts +:+ edgeLines trs +:+ "}").
  { unfold WorkflowVisualizer.generateGraph. rewrite !fold_left_append.
    fold header. now rewrite !string_app_assoc. }
  split; [exact Hg|]. split; [|split; [|reflexivity]].
  - intros s Hs. apply list_elem_of_split in Hs as (l1 & l2 & ->). rewrite Hg.
    exists (header +:+ stateLines l1), (stateLines l2 +:+ edgeLines trs +:+ "}").
    unfold stateLines. rewrite foldr_app. cbn.
    assert (Hacc : ∀ l acc, foldr (fun s acc => WorkflowVisualizer.stateLine s +:+ acc) acc l
                            = foldr (fun s acc => WorkflowVisualizer.stateLine s +:+ acc) "" l
                              +:+ acc).
    { induction l as [|a l IH]; intros acc; cbn; [reflexivity|].
      now rewrite IH, string_app_assoc. }
    rewrite Hacc. now rewrite !string_app_assoc.
  - intros t Ht. apply list_elem_of_split in Ht as (l1 & l2 & ->). rewrite Hg.
    exists (header +:+ stateLines sts +:+ edgeLines l1), (edgeLines l2 +:+ "}").
    unfold edgeLines at 1. rewrite foldr_app. cbn.
    assert (Hacc : ∀ l acc,
              foldr (fun t acc => WorkflowVisualizer.transitionLine conditionToString t +:+ acc)
                    acc l
              = edgeLines l +:+ acc).
    { induction l as [|a l IH]; intros acc; cbn; [reflexivity|].
      now rewrite IH, string_app_assoc. }
    rewrite Hacc. now rewrite !string_app_assoc.
Qed.

Lemma generateGraph_lines_witness :
  ∃ pre post,
    WorkflowVisualizer.generateGraph (fun _ => "") (heap workflow) (transitions (this workflow))
    = pre +:+ WorkflowVisualizer.stateLine (mkState "in_progress" false) +:+ post.
Proof.
  refine (proj1 (proj2 (generateGraph_lines (fun _ => "") (heap workflow)
                          (transitions (this workflow)))) _ _).
  apply (list_elem_of_lookup_2 _ 1%nat). vm_compute. reflexivity.
Defined.

(** ** Construction from a definition *)

Lemma runOps_app ops ops' w : runOps (ops ++ ops') w = runOps ops' (runOps ops w).
Proof. revert w. induction ops as [|op ops IH]; intros w; cbn; [reflexivity | apply IH]. Qed.

Lemma forEach_steps {A} (f : A -> M unit) (g : A -> Op) (l : list A) :
  (∀ x w, f x w = (inr tt, exec (step (g x)) w)) ->
  ∀ w, forEach f l w = (inr tt, runOps (map g l) w).
Proof.
  intros H. induction l as [|x l IH]; intros w; cbn; [reflexivity|].
  unmonad. rewrite (H x w). apply IH.
Qed.

Lemma completed_eq (r : (WorkflowError + unit) * World) :
  fst r = inr tt -> r = (inr tt, snd r).
Proof. destruct r as [[e|[]] w]; [discriminate | reflexivity]. Qed.

(** [initializeWorkflow] never throws and is the sequence of calls
    [definitionOps]. *)
Lemma initializeWorkflow_runOps definition w :
  initializeWorkflow definition w = (inr tt, runOps (definitionOps definition) w).
Proof.
  unfold initializeWorkflow, definitionOps. unmonad.
  rewrite (forEach_steps _ OpAddState).
  2:{ intros n w1. apply (completed_eq (step (OpAddState n) w1)).
      exact (proj1 (addNewState_core n w1)). }
  rewrite (forEach_steps _ (fun '(f, t, c) => OpAddTransition (mkTransition f t (RuleRef c)))).
  2:{ intros [[f t] c] w1. reflexivity. }
  rewrite (forEach_steps _ OpAddEvent).
  2:{ intros e w1. reflexivity. }
  now rewrite !runOps_app.
Qed.

Lemma addState_with_current nm w c :
  currentState (this w) = Some c ->
  exec (step (OpAddState nm)) w
  = set_this (set_states (states (this w) ++ [length (heap w)]) (this w))
      (set_heap (heap w ++ [newState nm]) w).
Proof.
  intros Hc. unfold step, createState, addState. unmonad. now rewrite Hc.
Qed.

Lemma addStates_with_current names w c :
  currentState (this w) = Some c ->
  runOps (map OpAddState names) w
  = set_this (set_states (states (this w) ++ seq (length (heap w)) (length names)) (this w))
      (set_heap (heap w ++ map newState names) w).
Proof.
  revert w. induction names as [|nm names IH]; intros w Hc.
  - destruct w as [h [] l k nh co]. cbn. now rewrite !app_nil_r.
  - cbn [map runOps]. rewrite (addState_with_current nm w c Hc).
    rewrite IH by exact Hc. cbn.
    rewrite length_app, Nat.add_1_r, <- !app_assoc. reflexivity.
Qed.

Lemma addState_first nm w :
  heap w = [] -> currentState (this w) = None ->
  exec (step (OpAddState nm)) w
  = set_console (console w ++ persistLog w "currentState" nm)
      (set_this
         (set_storage (persisted "currentState" nm (storage (this w)))
            (set_currentState (Some 0%nat)
               (set_states (states (this w) ++ [0%nat]) (this w))))
         (set_heap [mkState nm true] w)).
Proof.
  destruct w as [h [sts trs evs cur st tm cfg prev re em] l k nh co]. cbn.
  intros -> ->.
  unfold step, createState, addState, saveState, persistLog, persisted, set_isActive,
    deref.
  unmonad. cbn.
  destruct st; cbn; rewrite ?app_nil_r; reflexivity.
Qed.

Lemma addTransitions_all ts w :
  runOps (map OpAddTransition ts) w
  = set_this (set_transitions (transitions (this w) ++ ts) (this w)) w.
Proof.
  revert w. induction ts as [|t ts IH]; intros w.
  - destruct w as [h [] l k nh co]. cbn. now rewrite app_nil_r.
  - cbn [map runOps]. rewrite IH. unfold step, addTransition. unmonad.
    now rewrite <- app_assoc.
Qed.

Lemma addEvents_all es w :
  runOps (map OpAddEvent es) w
  = set_this (set_events (events (this w) ++ es) (this w)) w.
Proof.
  revert w. induction es as [|e es IH]; intros w.
  - destruct w as [h [] l k nh co]. cbn. now rewrite app_nil_r.
  - cbn [map runOps]. rewrite IH. unfold step, addEvent. unmonad.
    now rewrite <- app_assoc.
Qed.

Lemma definitionOps_transitions definition :
  definitionOps definition
  = map OpAddState (def_states definition)
    ++ map OpAddTransition (definedTransitions definition)
    ++ map OpAddEvent (def_events definition).
Proof.
  unfold definitionOps, definedTransitions. rewrite map_map.
  do 2 f_equal. apply map_ext. now intros [[f t] c].
Qed.

Lemma names_of_seq (d : State) (p h : list State) :
  map (fun r => name (default d ((p ++ h) !! r))) (seq (length p) (length h))
  = map name h.
Proof.
  revert p. induction h as [|x h IH]; intros p; [reflexivity|].
  cbn [length seq map]. rewrite list_lookup_middle by reflexivity. cbn. f_equal.
  specialize (IH (p ++ [x])). rewrite length_app, Nat.add_1_r, <- app_assoc in IH.
  exact IH.
Qed.

Lemma lookup_map {A B} (f : A -> B) (l : list A) (i : nat) :
  map f l !! i = f <$> (l !! i).
Proof.
  revert i. induction l as [|x l IH]; intros [|i]; cbn; try reflexivity. apply IH.
Qed.

Lemma inactive_after_first (n0 : string) (rest : list string) (r : nat) :
  isActive (default (mkState "" false) ((mkState n0 true :: map newState rest) !! r)) = true
  ↔ r = 0%nat.
Proof.
  destruct r as [|r]; [cbn; tauto|].
  change ((mkState n0 true :: map newState rest) !! S r) with (map newState rest !! r).
  rewrite lookup_map. destruct (rest !! r); cbn; split; congruence.
Qed.

(** The world [initializeWorkflow] builds on a manager without States: one
    State object per defined name, the first one active and current. *)
Lemma initializeWorkflow_world definition w0 :
  heap w0 = [] -> states (this w0) = [] -> currentState (this w0) = None ->
  runOps (definitionOps definition) w0
  = match def_states definition with
    | [] =>
        set_this (set_events (events (this w0) ++ def_events definition)
                    (set_transitions (transitions (this w0) ++ definedTransitions definition)
                       (this w0))) w0
    | n0 :: rest =>
        set_console (console w0 ++ persistLog w0 "currentState" n0)
          (set_this
             (set_events (events (this w0) ++ def_events definition)
                (set_transitions (transitions (this w0) ++ definedTransitions definition)
                   (set_storage (persisted "currentState" n0 (storage (this w0)))
                      (set_currentState (Some 0%nat)
                         (set_states (seq 0 (S (length rest))) (this w0))))))
             (set_heap (mkState n0 true :: map newState rest) w0))
    end.
Proof.
  intros Hh Hs Hc. rewrite definitionOps_transitions, !runOps_app.
  destruct (def_states definition) as [|n0 rest].
  - cbn [map runOps]. now rewrite addTransitions_all, addEvents_all.
  - cbn [map runOps]. rewrite (addState_first n0 w0 Hh Hc).
    rewrite (addStates_with_current rest _ 0%nat) by reflexivity.
    rewrite addTransitions_all, addEvents_all. cbn. rewrite Hs. reflexivity.
Qed.

Lemma storage_of_type defaultConfig customConfig :
  storage (this (construct defaultConfig None customConfig))
  = match (customConfig ∪ defaultConfig) !! "storageType" with
    | Some "memory" => MemoryStorage ∅
    | Some "mongo" => MongoStorage
    | Some "redis" => RedisStorage
    | _ => NoStorage
    end.
Proof. reflexivity. Qed.

Lemma other_storageType (s : string) :
  s ≠ "memory" -> s ≠ "mongo" -> s ≠ "redis" ->
  match s with
  | "memory" => MemoryStorage ∅
  | "mongo" => MongoStorage
  | "redis" => RedisStorage
  | _ => NoStorage
  end = NoStorage.
Proof.
  intros H1 H2 H3.
  repeat (destruct s as [|[[] [] [] [] [] [] [] []] s];
          try reflexivity; try (now destruct H1); try (now destruct H2);
          try (now destruct H3)).
Qed.

(** A configuration that selects no networked backend gives the memory
    backend or none. *)
Lemma local_storage defaultConfig customConfig :
  localBackend (ConfigManager.new defaultConfig customConfig) ->
  inProcess (storage (this (construct defaultConfig None customConfig))).
Proof.
  intros Hlocal. rewrite storage_of_type.
  unfold localBackend, ConfigManager.new in Hlocal.
  destruct ((customConfig ∪ defaultConfig) !! "storageType") as [s|]; [|exact I].
  destruct (Hlocal s eq_refl) as [H2 H3].
  destruct (decide (s = "memory")) as [->|H1]; [exact I|].
  now rewrite other_storageType.
Qed.

(** The manager [new WorkflowManager(definition, customConfig)] leaves behind,
    whatever the backend, a write to a networked one being a request in the
    log. *)
Lemma construct_world defaultConfig customConfig definition :
  let w0 := construct defaultConfig None customConfig in
  let w := construct defaultConfig (Some definition) customConfig in
  config (this w) = ConfigManager.new defaultConfig customConfig
  ∧ stateNames w = def_states definition
  ∧ states (this w) = seq 0 (length (def_states definition))
  ∧ length (heap w) = length (def_states definition)
  ∧ transitions (this w) = definedTransitions definition
  ∧ events (this w) = def_events definition
  ∧ previousState (this w) = None
  ∧ ruleEngine (this w) = ∅ ∧ eventManager (this w) = ∅
  ∧ timers (this w) = ∅ ∧ loop w = []
  ∧ match def_states definition with
    | [] =>
        currentState (this w) = None ∧ activeStates w = []
        ∧ storage (this w) = storage (this w0) ∧ console w = []
    | n0 :: _ =>
        currentState (this w) = Some 0%nat ∧ currentName w = Some n0
        ∧ activeStates w = [0%nat]
        ∧ storage (this w) = persisted "currentState" n0 (storage (this w0))
        ∧ console w = persistLog w0 "currentState" n0
    end.
Proof.
  intros w0 w.
  assert (Hw : w = runOps (definitionOps definition) w0).
  { subst w w0. unfold construct. now rewrite initializeWorkflow_runOps. }
  rewrite Hw, (initializeWorkflow_world definition w0) by reflexivity.
  destruct (def_states definition) as [|n0 rest].
  - repeat split.
  - unfold stateNames, activeStates, currentName, deref. unmonad.
    repeat split.
    + pose proof (names_of_seq (mkState "" false) [] (mkState n0 true :: map newState rest)) as E.
      cbn [length app] in E. rewrite length_map in E. etransitivity; [exact E|].
      cbn [map name]. f_equal. rewrite List.map_map. apply List.map_id.
    + cbn [length]. now rewrite length_map.
    + apply filter_unique.
      * apply NoDup_remove_dups.
      * apply elem_of_remove_dups. cbn. apply list_elem_of_here.
      * intros r _. apply (inactive_after_first n0 rest r).
Qed.

(** X12: [new WorkflowManager(definition, customConfig)] with a configuration
    that selects the memory backend or none: the configuration is the
    defaults overridden by the custom options; there is one State per defined
    name, in order, and the edges and events are those of the definition; no
    rule and no listener is registered and no timer is armed.  With at least
    one State the first one is current, it is the only active one, and its
    name has been handed to the backend; without States there is no current
    state and nothing was written.  Nothing is logged. *)
Theorem construct_from_definition defaultConfig customConfig definition :
  localBackend (ConfigManager.new defaultConfig customConfig) ->
  let w0 := construct defaultConfig None customConfig in
  let w := construct defaultConfig (Some definition) customConfig in
  inProcess (storage (this w))
  ∧ config (this w) = ConfigManager.new defaultConfig customConfig
  ∧ stateNames w = def_states definition
  ∧ states (this w) = seq 0 (length (def_states definition))
  ∧ length (heap w) = length (def_states definition)
  ∧ transitions (this w) = definedTransitions definition
  ∧ events (this w) = def_events definition
  ∧ previousState (this w) = None
  ∧ ruleEngine (this w) = ∅ ∧ eventManager (this w) = ∅
  ∧ timers (this w) = ∅ ∧ loop w = []
  ∧ console w = []
  ∧ match def_states definition with
    | [] =>
        currentState (this w) = None ∧ activeStates w = []
        ∧ storage (this w) = storage (this w0)
    | n0 :: _ =>
        currentState (this w) = Some 0%nat ∧ currentName w = Some n0
        ∧ activeStates w = [0%nat]
        ∧ storage (this w) = persisted "currentState" n0 (storage (this w0))
    end.
Proof.
  intros Hlocal w0 w.
  pose proof (local_storage defaultConfig customConfig Hlocal) as H0. fold w0 in H0.
  destruct (construct_world defaultConfig customConfig definition)
    as (Hcfg & Hnames & Hstates & Hheap & Htr & Hev & Hprev & Hrules & Hlis & Htim & Hloop & Hrest).
  fold w0 w in Hcfg, Hnames, Hstates, Hheap, Htr, Hev, Hprev, Hrules, Hlis, Htim, Hloop, Hrest.
  assert (Hlog : ∀ n0, persistLog w0 "currentState" n0 = []).
  { intros n0. unfold persistLog. now destruct (storage (this w0)). }
  assert (Hst : inProcess (storage (this w)) ∧ console w = []).
  { destruct (def_states definition) as [|n0 rest].
    - destruct Hrest as (_ & _ & -> & ->). now split.
    - destruct Hrest as (_ & _ & _ & -> & ->). rewrite Hlog. split; [|reflexivity].
      unfold persisted. now destruct (storage (this w0)). }
  destruct Hst as [Hst Hco].
  do 12 (split; [assumption|]).
  destruct (def_states definition) as [|n0 rest].
  - destruct Hrest as (? & ? & ? & _). now repeat split.
  - destruct Hrest as (? & ? & ? & ? & _). now repeat split.
Qed.

Lemma construct_from_definition_witness :
  localBackend (ConfigManager.new ∅ exampleConfig)
  ∧ stateNames constructed = ["initial"; "in_progress"; "completed"]
  ∧ currentName constructed = Some "initial"
  ∧ activeStates constructed = [0%nat]
  ∧ storedStateName constructed = Some "initial".
Proof.
  assert (Hlocal : localBackend (ConfigManager.new ∅ exampleConfig)).
  { intros s Hs. vm_compute in Hs. injection Hs as <-. split; discriminate. }
  destruct (construct_from_definition ∅ exampleConfig exampleDefinition Hlocal)
    as (_ & _ & Hnames & _ & _ & _ & _ & _ & _ & _ & _ & _ & _ & Hrest).
  cbn [def_states exampleDefinition] in Hnames, Hrest.
  destruct Hrest as (_ & Hcur & Hact & Hst).
  split; [exact Hlocal|]. split; [exact Hnames|]. split; [exact Hcur|].
  split; [exact Hact|].
  unfold storedStateName. unfold constructed. rewrite Hst. vm_compute. reflexivity.
Defined.

Lemma find_is_Some {A} (f : A -> bool) (l : list A) x :
  x ∈ l -> f x = true -> is_Some (List.find f l).
Proof.
  induction l as [|a l IH]; intros Hx Hf; [now apply elem_of_nil in Hx|]. cbn.
  destruct (f a) eqn:Ea; [eauto|].
  apply elem_of_cons in Hx as [->|Hx]; [congruence | now apply IH].
Qed.

(** A definition whose edges lead to defined names gives a consistent
    manager. *)
Lemma Consistent_construct defaultConfig customConfig definition :
  (∀ t, t ∈ definedTransitions definition -> to t ∈ def_states definition) ->
  Consistent (construct defaultConfig (Some definition) customConfig).
Proof.
  intros Hedges.
  set (w0 := construct defaultConfig None customConfig).
  assert (Hw : construct defaultConfig (Some definition) customConfig
               = runOps (definitionOps definition) w0).
  { subst w0. unfold construct. now rewrite initializeWorkflow_runOps. }
  rewrite Hw, (initializeWorkflow_world definition w0) by reflexivity.
  destruct (def_states definition) as [|n0 rest] eqn:Hnames.
  - constructor; unmonad; cbn; try reflexivity; try discriminate.
    + intros r Hr. now apply elem_of_nil in Hr.
    + intros r Hr. now apply elem_of_nil in Hr.
    + intros t Ht. apply Hedges in Ht. now apply elem_of_nil in Ht.
  - constructor; unfold find_state, deref; unmonad.
    + intros r Hr. apply elem_of_seq in Hr. cbn [length]. rewrite length_map. lia.
    + cbn. apply list_elem_of_here.
    + discriminate.
    + intros r _. rewrite (inactive_after_first n0 rest r). split; congruence.
    + intros t Ht. rewrite app_nil_l in Ht. apply Hedges in Ht.
      apply list_elem_of_lookup in Ht as [i Hi].
      apply (find_is_Some _ _ i).
      * apply elem_of_seq. apply lookup_lt_Some in Hi. cbn [length] in Hi. lia.
      * apply bool_decide_eq_true.
        assert (E : map name (mkState n0 true :: map newState rest) !! i = Some (to t)).
        { cbn [map name]. rewrite List.map_map.
          replace (map (fun x => name (newState x)) rest) with rest
            by (symmetry; apply List.map_id).
          exact Hi. }
        rewrite lookup_map in E.
        destruct ((mkState n0 true :: map newState rest) !! i) as [s|]; [|discriminate].
        cbn in E |- *. congruence.
Qed.

Lemma step_states_grow op w :
  Consistent w -> ∃ l, states (this (exec (step op) w)) = states (this w) ++ l.
Proof.
  intros HC. destruct op as [nm | t | nm rule | e | s | ]; cbn [step].
  - destruct (addNewState_core nm w) as [_ Hcore]. unfold core in Hcore.
    exists [length (heap w)].
    destruct (currentState (this w)); now injection Hcore.
  - exists []. now rewrite app_nil_r.
  - exists []. now rewrite app_nil_r.
  - exists []. now rewrite app_nil_r.
  - exists []. rewrite app_nil_r. now apply transitionTo_states.
  - exists []. rewrite app_nil_r. apply rollback_states.
Qed.

Lemma runOps_states_grow ops w :
  Consistent w -> admissibleAll ops w ->
  ∃ l, states (this (runOps ops w)) = states (this w) ++ l.
Proof.
  revert w. induction ops as [|op ops IH]; intros w HC Hadm; cbn.
  - exists []. now rewrite app_nil_r.
  - destruct Hadm as [Ha Hadm].
    destruct (step_states_grow op w HC) as [l1 H1].
    destruct (IH _ (Consistent_step op w Ha HC) Hadm) as [l2 H2].
    exists (l1 ++ l2). now rewrite H2, H1, app_assoc.
Qed.

(** X13: A manager built, with the memory backend or none, from a definition with
    at least one State, all of whose edges lead to defined names, has exactly
    one active State, the current one, before and after every immediate
    [transitionTo], whatever calls of [addState], [addTransition] (to a listed
    name), [addRule], [addEvent], immediate [transitionTo] and [rollback] came
    before. *)
Theorem constructed_single_active defaultConfig customConfig definition ops stateName :
  localBackend (ConfigManager.new defaultConfig customConfig) ->
  def_states definition ≠ [] ->
  (∀ t, t ∈ definedTransitions definition -> to t ∈ def_states definition) ->
  let w := construct defaultConfig (Some definition) customConfig in
  admissibleAll ops w ->
  let before := runOps ops w in
  let after := exec (transitionTo stateName 0) before in
  ∃ c c', currentState (this before) = Some c ∧ activeStates before = [c]
          ∧ currentState (this after) = Some c' ∧ activeStates after = [c'].
Proof.
  intros _ Hne Hedges w Hadm before after.
  assert (HC : Consistent w) by now apply Consistent_construct.
  assert (HB : Consistent before) by now apply Consistent_runOps.
  destruct (single_active_around stateName before HB) as [(Hs & _) | H]; [|exact H].
  exfalso.
  destruct (runOps_states_grow ops w HC Hadm) as [l Hl].
  fold before in Hl. rewrite Hs in Hl.
  assert (Hw : states (this w) = []) by (now destruct (states (this w))).
  assert (Hlen : length (states (this w)) = length (def_states definition)).
  { subst w. unfold construct. rewrite initializeWorkflow_runOps. cbn [snd].
    rewrite (initializeWorkflow_world definition) by reflexivity.
    destruct (def_states definition); cbn; [reflexivity|].
    now rewrite length_seq. }
  rewrite Hw in Hlen. destruct (def_states definition); [congruence | discriminate].
Qed.

Lemma constructed_single_active_witness :
  ∃ c c', currentState (this workflow) = Some c ∧ activeStates workflow = [c]
          ∧ currentState (this (exec (transitionTo "in_progress" 0) workflow)) = Some c'
          ∧ activeStates (exec (transitionTo "in_progress" 0) workflow) = [c'].
Proof.
  refine (constructed_single_active ∅ exampleConfig exampleDefinition
            [OpAddRule "canStart" true; OpAddRule "canComplete" true] "in_progress" _ _ _ _).
  - intros s Hs. vm_compute in Hs. injection Hs as <-. split; discriminate.
  - discriminate.
  - intros t Ht. cbn in Ht.
    apply elem_of_cons in Ht as [->|Ht]; [cbn; apply list_elem_of_further, list_elem_of_here|].
    apply list_elem_of_singleton in Ht as ->. cbn.
    do 2 apply list_elem_of_further. apply list_elem_of_here.
  - cbn. auto.
Defined.

(** ** What the transition protocol never changes *)

Lemma SameGraph_refl w : SameGraph w w.
Proof. now constructor. Qed.

Lemma SameGraph_trans w1 w2 w3 : SameGraph w1 w2 -> SameGraph w2 w3 -> SameGraph w1 w3.
Proof.
  intros [a1 a2 a3 a4 a5 a6 a7 a8] [b1 b2 b3 b4 b5 b6 b7 b8].
  constructor; try congruence; intros r; now rewrite b8, a8.
Qed.

Lemma SameGraph_set_isActive r b w : SameGraph w (set_isActive r b w).
Proof.
  constructor; try reflexivity.
  - unfold set_isActive. cbn. apply length_alter.
  - intros r'. apply set_isActive_name.
Qed.

Lemma framed_ret {A} (a : A) : framed (mret a).
Proof. intros w. apply SameGraph_refl. Qed.

Lemma framed_throw {A} e : framed (@throw A e).
Proof. intros w. apply SameGraph_refl. Qed.

Lemma framed_bind {A B} (m : M A) (k : A -> M B) :
  framed m -> (∀ a, framed (k a)) -> framed (m ≫= k).
Proof.
  intros Hm Hk w. specialize (Hm w). unfold mbind, M_bind, bind.
  destruct (m w) as [[e|a] w1]; cbn in *; [exact Hm|].
  eapply SameGraph_trans; [exact Hm | apply Hk].
Qed.

Lemma framed_try_catch {A} (m : M A) (h : WorkflowError -> M A) :
  framed m -> (∀ e, framed (h e)) -> framed (try_catch m h).
Proof.
  intros Hm Hh w. specialize (Hm w). unfold try_catch.
  destruct (m w) as [[e|a] w1]; cbn in *; [|exact Hm].
  eapply SameGraph_trans; [exact Hm | apply Hh].
Qed.

Lemma framed_get : framed get.
Proof. intros w. apply SameGraph_refl. Qed.

Lemma framed_modify (f : World -> World) :
  (∀ w, SameGraph w (f w)) -> framed (modify f).
Proof. intros H w. apply H. Qed.

Lemma framed_modify_this (f : WorkflowManager -> WorkflowManager) :
  (∀ m, states (f m) = states m ∧ transitions (f m) = transitions m
        ∧ events (f m) = events m ∧ ruleEngine (f m) = ruleEngine m
        ∧ eventManager (f m) = eventManager m ∧ config (f m) = config m) ->
  framed (modify_this f).
Proof.
  intros H w. destruct (H (this w)) as (h1 & h2 & h3 & h4 & h5 & h6).
  now constructor.
Qed.

Lemma framed_emit e : framed (emit e).
Proof. intros w. now constructor. Qed.

(** Chains the rules above through the body of a method. *)
Ltac framing :=
  repeat first
    [ apply framed_ret | apply framed_throw | apply framed_get | apply framed_emit
    | apply framed_bind; [|intros ?]
    | apply framed_try_catch; [|intros ?]
    | apply framed_modify; intros ?; first [apply SameGraph_set_isActive | now constructor]
    | apply framed_modify_this; intros ?; now repeat split
    | match goal with
      | |- framed (match ?x with _ => _ end) => destruct x
      end ].

Lemma framed_saveState n : framed (saveState n).
Proof. unfold saveState. framing. Qed.

Lemma framed_sendWebhook p : framed (sendWebhook p).
Proof. unfold sendWebhook. framing. Qed.

Lemma framed_triggerEvent eventName : framed (triggerEvent eventName).
Proof. unfold triggerEvent, EventManager.trigger. framing; apply framed_sendWebhook. Qed.

Lemma framed_rollback : framed rollback.
Proof. unfold rollback. framing. Qed.

Lemma framed_setTimer stateName delay : framed (setTimer stateName delay).
Proof. unfold setTimer, setTimeout. framing. Qed.



Lemma framed_canTransition t : framed (canTransition t).
Proof. unfold canTransition, evaluateRule. framing. Qed.

Lemma framed_transitionTo stateName delay : framed (transitionTo stateName delay).
Proof.
  unfold transitionTo, transitionTo_try. framing;
    first [ apply framed_canTransition | apply framed_setTimer | apply framed_saveState
          | apply framed_sendWebhook | apply framed_triggerEvent | apply framed_rollback ].
Qed.




(** ** An accepted immediate transition *)

(** The pointers, flags and backend after an accepted immediate transition. *)
Lemma transitionTo_accepted stateName w t c n :
  List.find (matches w stateName) (transitions (this w)) = Some t ->
  canTransition t w = (inr true, w) ->
  currentState (this w) = Some c ->
  find_state stateName w = Some n ->
  let w' := exec (transitionTo stateName 0) w in
  fst (transitionTo stateName 0 w) = inr tt
  ∧ currentState (this w') = Some n
  ∧ previousState (this w') = Some c
  ∧ heap w' = heap (set_isActive n true (set_isActive c false w))
  ∧ storage (this w') = persisted "currentState" stateName (storage (this w)).
Proof.
  intros Hf Hg Hc Hn.
  pose proof (find_state_listed _ _ _ Hn) as [_ Hname].
  unfold transitionTo, try_catch, transitionTo_try. unmonad.
  rewrite Hf, Hg, Hc. cbn.
  rewrite find_state_set_isActive, Hn.
  unfold triggerEvent, saveState, sendWebhook, EventManager.trigger, triggerLog,
    webhookLog, webhookUrl, persistLog, persisted.
  unmonad. rewrite set_isActive_name, Hname.
  unfold set_isActive. unmonad.
  destruct (storage (this w)) eqn:Es; cbn;
    destruct (config (this w) !! "webhookUrl") as [u|] eqn:Eu; cbn;
    try destruct (truthy u) eqn:Et; cbn;
    destruct (eventManager (this w) !! ("transitionTo" +:+ stateName)) eqn:Ee; cbn;
    rewrite ?Eu; cbn; rewrite ?Et; cbn; rewrite ?Hc, ?Es, ?Ee; cbn;
    repeat split; rewrite <- ?app_assoc; reflexivity.
Qed.

(** X15: With the memory backend or none: when the edge found for
    [(currentState.name, target)] has a passing guard, a State carries the
    target name and no listener is registered for the event
    ["transitionTo" + target], the immediate [transitionTo] completes: the old
    State is deactivated and becomes [previousState], the target is activated
    and becomes current, its name goes to the backend, and then, in this
    order, the change is logged, the webhook (if a URL is configured) gets
    [{from, to}], the event is logged and the webhook gets [{event}].  Timers
    are not touched. *)
Theorem transitionTo_applies stateName w t c n :
  List.find (matches w stateName) (transitions (this w)) = Some t ->
  canTransition t w = (inr true, w) ->
  currentState (this w) = Some c ->
  find_state stateName w = Some n ->
  unheard ("transitionTo" +:+ stateName) w ->
  inProcess (storage (this w)) ->
  let w' := exec (transitionTo stateName 0) w in
  fst (transitionTo stateName 0 w) = inr tt
  ∧ currentState (this w') = Some n
  ∧ previousState (this w') = Some c
  ∧ heap w' = heap (set_isActive n true (set_isActive c false w))
  ∧ storage (this w') = persisted "currentState" stateName (storage (this w))
  ∧ console w'
    = console w
      ++ [LogStateChange (name (deref c w)) stateName]
      ++ webhookLog w (FromTo (name (deref c w)) stateName)
      ++ triggerLog w ("transitionTo" +:+ stateName)
  ∧ timers (this w') = timers (this w) ∧ loop w' = loop w.
Proof.
  intros Hf Hg Hc Hn Ee Hlocal. unfold unheard in Ee.
  pose proof (find_state_listed _ _ _ Hn) as [_ Hname].
  unfold transitionTo, try_catch, transitionTo_try. unmonad.
  rewrite Hf, Hg, Hc. cbn.
  rewrite find_state_set_isActive, Hn.
  unfold triggerEvent, saveState, sendWebhook, EventManager.trigger, triggerLog,
    webhookLog, webhookUrl, persistLog, persisted.
  unmonad. rewrite set_isActive_name, Hname.
  unfold set_isActive. unmonad.
  destruct (storage (this w)) eqn:Es; cbn in Hlocal; try contradiction; cbn;
    destruct (config (this w) !! "webhookUrl") as [u|] eqn:Eu; cbn;
    try destruct (truthy u) eqn:Et; cbn;
    rewrite ?Ee; cbn;
    rewrite ?Eu; cbn; rewrite ?Et; cbn; rewrite ?Hc, ?Es, ?Ee; cbn;
    repeat split; rewrite <- ?app_assoc; reflexivity.
Qed.


Lemma transitionTo_applies_witness :
  let w' := exec (transitionTo "in_progress" 0) workflow in
  currentName w' = Some "in_progress"
  ∧ storedStateName w' = Some "in_progress"
  ∧ console w'
    = [LogStateChange "initial" "in_progress";
       WebhookSend "http://webhook.url" (FromTo "initial" "in_progress");
       LogEventTrigger "transitionToin_progress";
       WebhookSend "http://webhook.url" (EventPayload "transitionToin_progress")].
Proof.
  intros w'.
  destruct (transitionTo_applies "in_progress" workflow
              (mkTransition "initial" "in_progress" (RuleRef "canStart")) 0%nat 1%nat)
    as (_ & Hcur & _ & Hheap & Hst & Hco & _); try (vm_compute; reflexivity).
  fold w' in Hcur, Hheap, Hst, Hco.
  split; [|split].
  - unfold currentName, deref. rewrite Hcur, Hheap. vm_compute. reflexivity.
  - unfold storedStateName. rewrite Hst. vm_compute. reflexivity.
  - rewrite Hco. vm_compute. reflexivity.
Defined.

(** ** A rejected transition with a previous state *)

(** X16: When the [try] block of [transitionTo] throws and a previous state is
    recorded, the caller sees no error: the promise resolves, the error is
    reported to the error handler, and the workflow is moved back to the
    previous state (current deactivated, previous activated and current,
    [previousState] cleared, "rollback" logged); the backend is not written. *)
Theorem transitionTo_rejected_rolls_back stateName delay w e p c :
  transitionTo_try stateName delay w = (inl e, w) ->
  previousState (this w) = Some p ->
  currentState (this w) = Some c ->
  (p < length (heap w))%nat ->
  let w' := exec (transitionTo stateName delay) w in
  fst (transitionTo stateName delay w) = inr tt
  ∧ currentState (this w') = Some p
  ∧ previousState (this w') = None
  ∧ isActive (deref p w') = true
  ∧ (c ≠ p -> (c < length (heap w))%nat -> isActive (deref c w') = false)
  ∧ console w' = console w ++ [HandleError e; LogStateChange "rollback" (name (deref p w))]
  ∧ storage (this w') = storage (this w).
Proof.
  intros Htry Hp Hc Hlt w'. subst w'. unfold exec.
  rewrite (transitionTo_caught _ _ _ _ _ Htry).
  destruct (rollback_restores (reported e w) p c Hp Hc Hlt)
    as (Hok & Hcur & Hprev & Hdp & Hdc & _ & Hco).
  destruct (rollback_storage_unchanged (reported e w)) as (Hst & _).
  unfold exec in *.
  repeat split; try assumption.
  - now rewrite Hdp.
  - intros Hne Hltc. now rewrite (Hdc Hne Hltc).
  - rewrite Hco. unfold reported. cbn. now rewrite <- app_assoc.
Qed.

Lemma transitionTo_rejected_rolls_back_witness :
  let w := exec (transitionTo "in_progress" 0) workflow in
  fst (transitionTo "initial" 0 w) = inr tt
  ∧ currentState (this (exec (transitionTo "initial" 0) w)) = Some 0%nat.
Proof.
  intros w.
  destruct (transitionTo_rejected_rolls_back "initial" 0 w (InvalidTransition "initial")
              0%nat 1%nat) as (H1 & H2 & _); try (vm_compute; reflexivity).
  - vm_compute. lia.
  - split; assumption.
Defined.

(** ** Guards and the rule engine *)





(** ** Undoing a transition *)

(** On a consistent world an edge that is found leads from the current State
    to a listed one. *)
Lemma accepted_endpoints stateName w t :
  Consistent w ->
  List.find (matches w stateName) (transitions (this w)) = Some t ->
  ∃ c n, currentState (this w) = Some c ∧ find_state stateName w = Some n.
Proof.
  intros HC Hf. apply find_some in Hf as [Hin Hm].
  apply list_elem_of_In in Hin.
  unfold matches in Hm. apply andb_true_iff in Hm as [Hfrom Hto].
  apply bool_decide_eq_true in Hfrom. apply bool_decide_eq_true in Hto.
  unfold currentName in Hfrom.
  destruct (currentState (this w)) as [c|]; [|discriminate].
  destruct (edges_closed w HC t Hin) as [n Hn]. rewrite Hto in Hn. eauto.
Qed.

Lemma filter_ext_in {A} (P1 P2 : A -> Prop)
    `{!∀ x, Decision (P1 x), !∀ x, Decision (P2 x)} (l : list A) :
  (∀ x, x ∈ l -> (P1 x ↔ P2 x)) -> filter P1 l = filter P2 l.
Proof.
  induction l as [|a l IH]; intros Hext; [reflexivity|].
  assert (Ha : P1 a ↔ P2 a) by apply Hext, list_elem_of_here.
  assert (Hl : filter P1 l = filter P2 l)
    by (apply IH; intros x Hx; apply Hext; now apply list_elem_of_further).
  rewrite !filter_cons, Hl.
  destruct (decide (P1 a)), (decide (P2 a)); tauto.
Qed.

(** X19: On a consistent world with the memory backend or none, [rollback()]
    right after an accepted immediate [transitionTo] (no listener being
    registered for its event) succeeds and undoes it in memory: the current
    state and every [isActive] flag are as before the transition, and
    [previousState] is null. *)
Theorem rollback_undoes_transition stateName w t :
  Consistent w ->
  List.find (matches w stateName) (transitions (this w)) = Some t ->
  canTransition t w = (inr true, w) ->
  unheard ("transitionTo" +:+ stateName) w ->
  inProcess (storage (this w)) ->
  let w1 := exec (transitionTo stateName 0) w in
  let w2 := exec rollback w1 in
  fst (transitionTo stateName 0 w) = inr tt
  ∧ fst (rollback w1) = inr tt
  ∧ currentState (this w2) = currentState (this w)
  ∧ (∀ r, r ∈ states (this w) -> isActive (deref r w2) = isActive (deref r w))
  ∧ activeStates w2 = activeStates w
  ∧ previousState (this w2) = None.
Proof.
  intros HC Hf Hg _ _ w1 w2.
  destruct (accepted_endpoints stateName w t HC Hf) as (c & n & Hc & Hn).
  destruct (transitionTo_accepted stateName w t c n Hf Hg Hc Hn)
    as (Hok & Hcur1 & Hprev1 & _).
  fold w1 in Hcur1, Hprev1.
  assert (HC1 : Consistent w1) by now apply Consistent_transitionTo.
  assert (HC2 : Consistent w2) by now apply Consistent_rollback.
  destruct (rollback_core w1 c n Hprev1 Hcur1) as [Hok2 Hcore]. fold w2 in Hcore.
  unfold core in Hcore. injection Hcore as _ Hst2 _ Hcur2 Hprev2.
  assert (Hst1 : states (this w1) = states (this w)) by now apply transitionTo_states.
  assert (Hflags : ∀ r, r ∈ states (this w) -> isActive (deref r w2) = isActive (deref r w)).
  { intros r Hr.
    pose proof (active_is_current w HC r Hr) as H0.
    assert (Hr2 : r ∈ states (this w2)) by now rewrite Hst2, Hst1.
    pose proof (active_is_current w2 HC2 r Hr2) as H2.
    rewrite Hcur2 in H2. rewrite Hc in H0.
    destruct (isActive (deref r w2)), (isActive (deref r w)); try reflexivity.
    - symmetry. apply H0, H2. reflexivity.
    - apply H2, H0. reflexivity. }
  repeat split; try assumption.
  - now rewrite Hcur2, Hc.
  - unfold activeStates. rewrite Hst2, Hst1.
    apply filter_ext_in. intros r Hr. apply (proj1 (elem_of_remove_dups _ _)) in Hr.
    now rewrite (Hflags r Hr).
Qed.

Lemma rollback_undoes_transition_witness :
  let w2 := exec rollback (exec (transitionTo "in_progress" 0) workflow) in
  currentState (this w2) = currentState (this workflow)
  ∧ activeStates w2 = activeStates workflow.
Proof.
  intros w2.
  destruct (rollback_undoes_transition "in_progress" workflow
              (mkTransition "initial" "in_progress" (RuleRef "canStart")))
    as (_ & _ & H1 & _ & H2 & _).
  - apply (Consistent_workflow []). exact I.
  - vm_compute. reflexivity.
  - vm_compute. reflexivity.
  - vm_compute. reflexivity.
  - exact I.
  - split; assumption.
Defined.

(** ** Loading the state *)

Lemma set_isActive_same r b w :
  (r < length (heap w))%nat -> isActive (deref r w) = b ->
  heap (set_isActive r b w) = heap w.
Proof.
  intros Hr Hb. unfold set_isActive, deref in *. cbn.
  destruct (lookup_lt_is_Some_2 (heap w) r Hr) as [s Hs]. rewrite Hs in Hb.
  apply list_eq. intros i. destruct (decide (r = i)) as [<-|Hne].
  - rewrite list_lookup_alter_eq, Hs. destruct s as [nm a]. cbn in *. now subst.
  - now rewrite list_lookup_alter_ne.
Qed.

(** When the name [loadState] reads is that of the current State, which is
    active and the first one listed under that name, nothing changes. *)
Lemma loadState_fixpoint remote w nm n :
  storageGet "currentState" remote w = Some nm ->
  find_state nm w = Some n ->
  currentState (this w) = Some n ->
  isActive (deref n w) = true ->
  (n < length (heap w))%nat ->
  loadState remote w = (inr tt, w).
Proof.
  intros Hget Hfind Hcur Hact Hlt. unfold loadState. unmonad.
  rewrite Hget. destruct (truthy nm); [|reflexivity].
  rewrite Hfind. unmonad. f_equal.
  pose proof (set_isActive_same n true w Hlt Hact) as Hh.
  unfold set_isActive in *.
  destruct w as [h m l k nh co]. destruct m. unmonad. subst. now rewrite Hh.
Qed.

(** X20: [loadState] with the memory backend or with none: without a stored
    name, with an empty one, or with one that no listed State carries, nothing
    changes at all.  Otherwise the first State listed under the name is
    activated and made current.  In every case it completes, clears no
    [isActive] flag, and leaves [previousState], the backend, the timers and
    the log alone. *)
Theorem loadState_only_activates remote w :
  inProcess (storage (this w)) ->
  let w' := exec (loadState remote) w in
  fst (loadState remote w) = inr tt
  ∧ loadState remote w = loadState None w
  ∧ (storageGet "currentState" remote w = None -> w' = w)
  ∧ (storageGet "currentState" remote w = Some "" -> w' = w)
  ∧ (∀ nm, storageGet "currentState" remote w = Some nm -> find_state nm w = None -> w' = w)
  ∧ (∀ nm n, storageGet "currentState" remote w = Some nm -> nm ≠ "" ->
       find_state nm w = Some n ->
       currentState (this w') = Some n ∧ heap w' = heap (set_isActive n true w))
  ∧ (∀ r, isActive (deref r w) = true -> isActive (deref r w') = true)
  ∧ previousState (this w') = previousState (this w)
  ∧ storage (this w') = storage (this w)
  ∧ timers (this w') = timers (this w) ∧ loop w' = loop w
  ∧ console w' = console w.
Proof.
  intros Hlocal.
  assert (Hremote : storageGet "currentState" None w = storageGet "currentState" remote w).
  { unfold storageGet. now destruct (storage (this w)). }
  unfold loadState. unmonad. rewrite Hremote.
  destruct (storageGet "currentState" remote w) as [nm|] eqn:Hget;
    [|repeat split; intros; first [reflexivity | assumption | discriminate]].
  destruct (truthy nm) eqn:Ht.
  - assert (Hnm : nm ≠ "").
    { intros ->. discriminate. }
    destruct (find_state nm w) as [n|] eqn:Hfind; unmonad.
    + repeat split; try discriminate;
        try (intros; first [reflexivity | assumption]).
      * intros [= ->]. congruence.
      * intros nm' [= <-]. congruence.
      * congruence.
      * congruence.
      * intros r Hr. change (isActive (deref r (set_isActive n true w)) = true).
        destruct (decide (n = r)) as [<-|Hne].
        -- destruct (decide (n < length (heap w))%nat) as [Hlt|Hge].
           ++ now rewrite set_isActive_deref.
           ++ unfold deref in Hr. rewrite lookup_ge_None_2 in Hr by lia. discriminate.
        -- now rewrite set_isActive_deref_ne.
    + repeat split; intros; first [reflexivity | assumption | discriminate | congruence].
  - unfold truthy in Ht. apply negb_false_iff, bool_decide_eq_true in Ht. subst nm.
    repeat split; intros; first [reflexivity | assumption | discriminate | congruence].
Qed.

Lemma loadState_only_activates_witness :
  let w := exec rollback (exec (transitionTo "in_progress" 0) workflow) in
  let w' := exec (loadState None) w in
  inProcess (storage (this w))
  ∧ storedStateName w = Some "in_progress"
  ∧ currentState (this w) = Some 0%nat
  ∧ currentState (this w') = Some 1%nat
  ∧ heap w' = heap (set_isActive 1%nat true w)
  ∧ activeStates w' = [0%nat; 1%nat].
Proof.
  intros w w'.
  assert (Hlocal : inProcess (storage (this w))) by exact I.
  destruct (loadState_only_activates None w Hlocal) as (_ & _ & _ & _ & _ & H & _).
  destruct (H "in_progress" 1%nat) as [Hcur Hheap];
    [vm_compute; reflexivity | discriminate | vm_compute; reflexivity |].
  fold w' in Hcur, Hheap.
  split; [exact Hlocal|]. split; [vm_compute; reflexivity|].
  split; [vm_compute; reflexivity|].
  split; [exact Hcur|]. split; [exact Hheap|].
  vm_compute. reflexivity.
Defined.

(** X21: After an accepted immediate [transitionTo] with the memory backend (the
    target being an allocated State and its event having no listener),
    [loadState()] finds the name just saved and changes nothing. *)
Theorem load_after_transition remote stateName w t c n m :
  List.find (matches w stateName) (transitions (this w)) = Some t ->
  canTransition t w = (inr true, w) ->
  currentState (this w) = Some c ->
  find_state stateName w = Some n ->
  (n < length (heap w))%nat ->
  storage (this w) = MemoryStorage m ->
  unheard ("transitionTo" +:+ stateName) w ->
  let w1 := exec (transitionTo stateName 0) w in
  storedStateName w1 = Some stateName
  ∧ loadState remote w1 = (inr tt, w1).
Proof.
  intros Hf Hg Hc Hn Hlt Hm _ w1.
  destruct (transitionTo_accepted stateName w t c n Hf Hg Hc Hn)
    as (_ & Hcur & _ & Hheap & Hst).
  fold w1 in Hcur, Hheap, Hst. rewrite Hm in Hst. cbn in Hst.
  pose proof (framed_transitionTo stateName 0 w) as HG. fold (exec (transitionTo stateName 0) w) in HG.
  fold w1 in HG.
  assert (Hstored : storedStateName w1 = Some stateName).
  { unfold storedStateName. rewrite Hst. unfold Memory.get, Memory.set.
    apply lookup_insert_eq. }
  split; [exact Hstored|].
  apply (loadState_fixpoint remote w1 stateName n).
  - unfold storageGet. unfold storedStateName in Hstored.
    now destruct (storage (this w1)).
  - rewrite (find_state_names stateName w w1); [exact Hn | apply (same_states _ _ HG) |].
    intros r _. apply (same_names _ _ HG).
  - exact Hcur.
  - unfold deref. rewrite Hheap.
    change (isActive (deref n (set_isActive n true (set_isActive c false w))) = true).
    rewrite set_isActive_deref; [reflexivity|].
    unfold set_isActive. cbn. now rewrite length_alter.
  - rewrite (same_length _ _ HG). exact Hlt.
Qed.

Lemma load_after_transition_witness :
  let w1 := exec (transitionTo "in_progress" 0) workflow in
  loadState None w1 = (inr tt, w1).
Proof.
  intros w1.
  refine (proj2 (load_after_transition None "in_progress" workflow
            (mkTransition "initial" "in_progress" (RuleRef "canStart")) 0%nat 1%nat
            {[ "currentState" := "initial" ]} _ _ _ _ _ _ _));
    try (vm_compute; reflexivity).
  vm_compute. lia.
Defined.

(** ** Delayed transitions and their cancellation *)

(** The world right after an accepted delayed [transitionTo]. *)
Lemma transitionTo_delayed_world stateName delay w t c :
  0 < delay ->
  List.find (matches w stateName) (transitions (this w)) = Some t ->
  canTransition t w = (inr true, w) ->
  currentState (this w) = Some c ->
  transitionTo stateName delay w
  = (inr tt,
     set_this (set_timers (<[stateName := nextHandle w]> (timers (this w))) (this w))
       (set_nextHandle (S (nextHandle w))
          (set_loop (loop w ++ [mkTimeout (nextHandle w) stateName
                                   (clock w + clampDelay delay)])
             (set_isActive c false w)))).
Proof.
  intros Hd Hf Hg Hc.
  rewrite (transitionTo_delayed_schedules stateName delay w t c Hd Hf Hg Hc).
  reflexivity.
Qed.

(** X22: A delayed transition on a manager with no other timer armed, with the
    memory backend or none and no listener for the event of the target: the
    call returns with the current state unchanged; while less than [delay]
    milliseconds have passed nothing else happens and the timer stays armed;
    once [delay] milliseconds have passed the target has been activated and
    made current and no timer is left.  [previousState] is never written. *)
Theorem delayed_transition_fires_on_time stateName delay ms w t c n :
  loop w = [] ->
  List.find (matches w stateName) (transitions (this w)) = Some t ->
  canTransition t w = (inr true, w) ->
  currentState (this w) = Some c ->
  find_state stateName w = Some n ->
  unheard ("transitionTo" +:+ stateName) w ->
  inProcess (storage (this w)) ->
  1 ≤ delay ≤ TIMEOUT_MAX ->
  0 ≤ ms ->
  let w1 := exec (transitionTo stateName delay) w in
  let w2 := advance ms w1 in
  fst (transitionTo stateName delay w) = inr tt
  ∧ currentState (this w1) = Some c
  ∧ heap w1 = heap (set_isActive c false w)
  ∧ (ms < delay ->
       currentState (this w2) = Some c ∧ heap w2 = heap w1
       ∧ map target (loop w2) = [stateName] ∧ console w2 = console w)
  ∧ (delay ≤ ms ->
       currentState (this w2) = Some n
       ∧ heap w2 = heap (set_isActive n true (set_isActive c false w))
       ∧ loop w2 = []
       ∧ previousState (this w2) = previousState (this w)).
Proof.
  intros Hloop Hf Hg Hc Hn _ _ Hdelay Hms w1 w2.
  assert (Hd : 0 < delay) by lia.
  pose proof (transitionTo_delayed_world stateName delay w t c Hd Hf Hg Hc) as Hw1.
  assert (Hclamp : clampDelay delay = delay).
  { unfold clampDelay. destruct Hdelay as [H1 H2].
    apply Z.leb_le in H1. apply Z.leb_le in H2. now rewrite H1, H2. }
  rewrite Hclamp, Hloop in Hw1. cbn [app] in Hw1.
  subst w2 w1. unfold exec. rewrite Hw1. cbn [fst snd].
  split; [reflexivity|]. split; [exact Hc|]. split; [reflexivity|].
  set (tm := mkTimeout (nextHandle w) stateName (clock w + delay)).
  match goal with |- context [advance ms ?W] => set (W1 := W) end.
  assert (HL : loop W1 = [tm]) by reflexivity.
  assert (HK : clock W1 = clock w) by reflexivity.
  assert (HC : currentState (this W1) = Some c) by exact Hc.
  unfold advance. rewrite HL, HK. cbn [length runLoop]. rewrite HL, HK.
  unfold nextDue. rewrite filter_cons, filter_nil. cbn [expiry tm].
  split.
  - intros Hlt. rewrite decide_False by lia. cbn [earliest].
    repeat split; first [exact HC | now rewrite HL | reflexivity].
  - intros Hge. rewrite decide_True by lia. cbn [earliest].
    rewrite filter_cons_False by (intros H; now apply H). rewrite filter_nil.
    cbn [target tm runLoop].
    set (W2 := set_clock (Z.max (clock w) (clock w + delay)) (set_loop [] W1)).
    destruct (onTimeout_spec stateName W2) as (_ & Hl & Hp & Hfound).
    assert (Hn0 : find_state stateName W2 = Some n).
    { rewrite <- Hn. apply find_state_names; [reflexivity|].
      intros r _. apply (set_isActive_name c r false w). }
    rewrite Hn0 in Hfound. destruct Hfound as [Hh Hcur].
    unfold exec in *.
    change (currentState (this (onTimeout stateName W2).2) = Some n
            ∧ heap (onTimeout stateName W2).2
              = heap (set_isActive n true (set_isActive c false w))
            ∧ loop (onTimeout stateName W2).2 = []
            ∧ previousState (this (onTimeout stateName W2).2) = previousState (this w)).
    rewrite Hcur, Hh, Hl, Hp. repeat split.
Qed.

Lemma delayed_transition_fires_on_time_witness :
  let w1 := exec (transitionTo "in_progress" 1000) workflow in
  currentName (advance 999 w1) = Some "initial"
  ∧ currentName (advance 1000 w1) = Some "in_progress".
Proof.
  intros w1.
  assert (H : ∀ ms, 0 ≤ ms ->
            (ms < 1000 -> currentState (this (advance ms w1)) = Some 0%nat
                          ∧ heap (advance ms w1) = heap w1)
            ∧ (1000 ≤ ms -> currentState (this (advance ms w1)) = Some 1%nat
                 ∧ heap (advance ms w1)
                   = heap (set_isActive 1%nat true (set_isActive 0%nat false workflow)))).
  { intros ms Hms.
    destruct (delayed_transition_fires_on_time "in_progress" 1000 ms workflow
                (mkTransition "initial" "in_progress" (RuleRef "canStart")) 0%nat 1%nat)
      as (_ & _ & _ & Hbefore & Hafter);
      try (vm_compute; reflexivity); try exact Hms; try exact I.
    - unfold TIMEOUT_MAX. lia.
    - fold w1 in Hbefore, Hafter. split.
      + intros Hlt. destruct (Hbefore Hlt) as (H1 & H2 & _). auto.
      + intros Hge. destruct (Hafter Hge) as (H1 & H2 & _). auto. }
  split.
  - destruct (H 999) as [Hb _]; [lia|]. destruct Hb as [Hcur Hheap]; [lia|].
    unfold currentName, deref. rewrite Hcur, Hheap. vm_compute. reflexivity.
  - destruct (H 1000) as [_ Ha]; [lia|]. destruct Ha as [Hcur Hheap]; [lia|].
    unfold currentName, deref. rewrite Hcur, Hheap. vm_compute. reflexivity.
Defined.

Lemma filter_issued (l : list Timeout) (h : nat) :
  (∀ t, t ∈ l -> (handle t < h)%nat) -> filter (fun t => handle t ≠ h) l = l.
Proof.
  induction l as [|a l IH]; intros H; [reflexivity|].
  rewrite filter_cons_True by (specialize (H a (list_elem_of_here _ _)); lia).
  f_equal. apply IH. intros t Ht. apply H. now apply list_elem_of_further.
Qed.

(** [setTimer] and [clearTimer] hand out and retire handles so that every
    armed timer keeps a handle below the next one. *)
Lemma handlesIssued_timers stateName delay w :
  handlesIssued w ->
  handlesIssued (exec (setTimer stateName delay) w)
  ∧ handlesIssued (exec (clearTimer stateName) w).
Proof.
  intros H. split.
  - unfold handlesIssued, setTimer, setTimeout. unmonad.
    intros t [Ht| ->%list_elem_of_singleton]%elem_of_app; [apply H in Ht|cbn]; lia.
  - unfold handlesIssued, clearTimer, clearTimeout. unmonad.
    destruct (timers (this w) !! stateName); unmonad; [|exact H].
    intros t Ht. apply list_elem_of_filter in Ht as [_ Ht]. now apply H.
Qed.

(** X23: Cancelling a delayed transition before it fires: [clearTimer(target)]
    right after an accepted [transitionTo(target, delay)] disarms exactly the
    timer that call armed, so the armed timers are those from before and the
    transition never fires.  The State deactivated when the transition was
    scheduled is not reactivated: it stays current and inactive. *)
Theorem clearTimer_cancels_delayed stateName delay w t c :
  handlesIssued w ->
  0 < delay ->
  List.find (matches w stateName) (transitions (this w)) = Some t ->
  canTransition t w = (inr true, w) ->
  currentState (this w) = Some c ->
  let w' := exec (transitionTo stateName delay;; clearTimer stateName) w in
  fst ((transitionTo stateName delay;; clearTimer stateName) w) = inr tt
  ∧ loop w' = loop w
  ∧ timers (this w') = delete stateName (timers (this w))
  ∧ pendingFor stateName w' = pendingFor stateName w
  ∧ currentState (this w') = Some c
  ∧ previousState (this w') = previousState (this w)
  ∧ heap w' = heap (set_isActive c false w)
  ∧ console w' = console w
  ∧ handlesIssued w'.
Proof.
  intros Hissued Hd Hf Hg Hc w'.
  pose proof (transitionTo_delayed_world stateName delay w t c Hd Hf Hg Hc) as Hw1.
  assert (Hfil : filter (fun t0 => handle t0 ≠ nextHandle w)
                   (loop w ++ [mkTimeout (nextHandle w) stateName (clock w + clampDelay delay)])
                 = loop w).
  { rewrite filter_app, (filter_issued _ _ Hissued).
    rewrite filter_cons_False by (intros H; now apply H).
    now rewrite filter_nil, app_nil_r. }
  assert (Hw' : (transitionTo stateName delay;; clearTimer stateName) w
                = (inr tt,
                   set_this (set_timers (delete stateName (timers (this w))) (this w))
                     (set_nextHandle (S (nextHandle w))
                        (set_loop (loop w) (set_isActive c false w))))).
  { unfold mbind, M_bind, bind. rewrite Hw1.
    unfold clearTimer, clearTimeout. unmonad.
    rewrite lookup_insert_eq. unmonad.
    change (loop (set_isActive c false w)) with (loop w).
    rewrite Hfil, delete_insert_eq. reflexivity. }
  subst w'. unfold exec. rewrite Hw'. cbn [fst snd].
  repeat split; try exact Hc.
  intros t0 Ht0. apply Hissued in Ht0. cbn. lia.
Qed.

Lemma clearTimer_cancels_delayed_witness :
  let w' := exec (transitionTo "in_progress" 1000;; clearTimer "in_progress") workflow in
  loop w' = [] ∧ activeStates w' = [].
Proof.
  intros w'.
  destruct (clearTimer_cancels_delayed "in_progress" 1000 workflow
              (mkTransition "initial" "in_progress" (RuleRef "canStart")) 0%nat)
    as (_ & Hloop & _ & _ & _ & _ & Hheap & _).
  - intros t Ht. now apply elem_of_nil in Ht.
  - lia.
  - vm_compute. reflexivity.
  - vm_compute. reflexivity.
  - vm_compute. reflexivity.
  - fold w' in Hloop, Hheap. split; [exact Hloop|].
    unfold activeStates, deref. rewrite Hheap. vm_compute. reflexivity.
Defined.

(** ** Events *)

Lemma on_registers eventName (cbs : list nat) w :
  let w1 := foldl (fun w cb => exec (on eventName cb) w) w cbs in
  default [] (eventManager (this w1) !! eventName)
  = default [] (eventManager (this w) !! eventName) ++ cbs
  ∧ (∀ other, other ≠ eventName ->
       eventManager (this w1) !! other = eventManager (this w) !! other)
  ∧ config (this w1) = config (this w)
  ∧ console w1 = console w.
Proof.
  revert w. induction cbs as [|cb cbs IH]; intros w; cbn [foldl].
  - rewrite app_nil_r. repeat split.
  - set (w' := exec (on eventName cb) w).
    assert (E1 : eventManager (this w') !! eventName
                 = Some (default [] (eventManager (this w) !! eventName) ++ [cb])).
    { subst w'. unfold on, EventManager.on. unmonad. apply lookup_insert_eq. }
    assert (E2 : ∀ other, other ≠ eventName ->
                 eventManager (this w') !! other = eventManager (this w) !! other).
    { intros other Hne. subst w'. unfold on, EventManager.on. unmonad.
      now apply lookup_insert_ne. }
    destruct (IH w') as (H1 & H2 & H3 & H4). cbv zeta.
    rewrite H1, H3, H4, E1. cbn [default]. unfold id.
    rewrite <- app_assoc. repeat split.
    intros other Hne. now rewrite (H2 other Hne), (E2 other Hne).
Qed.

(** X24: [on] and [triggerEvent], for an event name that is not a property name
    of [Object.prototype].  [on] appends the listener to those registered for
    the event, so they are kept in the order of registration (a listener
    registered twice is kept twice), and touches neither the listeners of
    other events, nor the configuration, nor the log.  Triggering an event
    that has no listener is not an error: the trigger is logged and, if a
    webhook URL is configured, the webhook gets [{event}]; nothing but the
    log changes. *)
Theorem listeners_kept_in_order eventName (cbs : list nat) w :
  plainKey eventName ->
  let w1 := foldl (fun w cb => exec (on eventName cb) w) w cbs in
  default [] (eventManager (this w1) !! eventName)
  = default [] (eventManager (this w) !! eventName) ++ cbs
  ∧ (∀ other, other ≠ eventName ->
       eventManager (this w1) !! other = eventManager (this w) !! other)
  ∧ config (this w1) = config (this w)
  ∧ console w1 = console w
  ∧ (unheard eventName w ->
       let w2 := exec (triggerEvent eventName) w in
       fst (triggerEvent eventName w) = inr tt
       ∧ console w2 = console w ++ triggerLog w eventName
       ∧ heap w2 = heap w ∧ this w2 = this w ∧ loop w2 = loop w).
Proof.
  intros _ w1.
  destruct (on_registers eventName cbs w) as (H1 & H2 & H3 & H4).
  fold w1 in H1, H2, H3, H4.
  split; [exact H1|]. split; [exact H2|]. split; [exact H3|]. split; [exact H4|].
  intros He. unfold unheard in He.
  unfold triggerEvent, EventManager.trigger, sendWebhook, triggerLog, webhookLog, webhookUrl.
  unmonad. rewrite He. unmonad.
  destruct (config (this w) !! "webhookUrl") as [u|] eqn:Eu; cbn;
    try destruct (truthy u) eqn:Et; cbn; rewrite ?Eu; cbn; rewrite ?Et; cbn;
    repeat split; rewrite <- ?app_assoc, ?app_nil_r; reflexivity.
Qed.

Lemma listeners_kept_in_order_witness :
  plainKey "start" ∧ unheard "start" workflow
  ∧ default [] (eventManager
                  (this (foldl (fun w cb => exec (on "start" cb) w) workflow
                           [7; 3; 7]%nat)) !! "start")
    = [7; 3; 7]%nat
  ∧ console (exec (triggerEvent "start") workflow)
    = [LogEventTrigger "start";
       WebhookSend "http://webhook.url" (EventPayload "start")].
Proof.
  assert (Hk : plainKey "start") by (apply plainKey_decide; vm_compute; reflexivity).
  assert (Hu : unheard "start" workflow) by (vm_compute; reflexivity).
  destruct (listeners_kept_in_order "start" [7; 3; 7]%nat workflow Hk)
    as (H1 & _ & _ & _ & H5).
  destruct (H5 Hu) as (_ & Hco & _).
  split; [exact Hk|]. split; [exact Hu|]. split.
  - rewrite H1. vm_compute. reflexivity.
  - rewrite Hco. vm_compute. reflexivity.
Defined.

(** ** Versions and the stored state *)

(** X25: [loadVersion] with the memory backend or with none: when the backend
    holds no version, or an empty one, the version of the configuration
    stays; a non-empty stored version replaces it.  Nothing but the [version]
    option changes, and the call completes. *)
Theorem loadVersion_keeps_or_replaces remote w :
  inProcess (storage (this w)) ->
  let w' := exec (loadVersion remote) w in
  fst (loadVersion remote w) = inr tt
  ∧ loadVersion remote w = loadVersion None w
  ∧ (storageGet "version" remote w = None -> w' = w)
  ∧ (storageGet "version" remote w = Some "" -> w' = w)
  ∧ (∀ v, storageGet "version" remote w = Some v -> v ≠ "" ->
       getVersion w' = Some v
       ∧ ∀ key, key ≠ "version" -> config (this w') !! key = config (this w) !! key)
  ∧ storage (this w') = storage (this w)
  ∧ heap w' = heap w ∧ currentState (this w') = currentState (this w)
  ∧ console w' = console w.
Proof.
  intros Hlocal.
  assert (Hremote : storageGet "version" None w = storageGet "version" remote w).
  { unfold storageGet. now destruct (storage (this w)). }
  unfold loadVersion, setVersion, getVersion. unmonad. rewrite Hremote.
  destruct (storageGet "version" remote w) as [v|] eqn:Hget;
    [|repeat split; intros; first [reflexivity | discriminate]].
  destruct (truthy v) eqn:Ht; unmonad.
  - repeat split; try discriminate.
    + intros [= ->]. discriminate.
    + injection H as <-. apply lookup_insert_eq.
    + intros key Hk. injection H as <-. now apply lookup_insert_ne.
  - unfold truthy in Ht. apply negb_false_iff, bool_decide_eq_true in Ht. subst v.
    repeat split; intros; first [reflexivity | discriminate | congruence].
Qed.

Lemma loadVersion_keeps_or_replaces_witness :
  let w := exec (setVersion "3.0.0") (exec (saveVersion "2.0.0") workflow) in
  inProcess (storage (this w))
  ∧ getVersion w = Some "3.0.0"
  ∧ getVersion (exec (loadVersion None) w) = Some "2.0.0"
  ∧ getVersion (exec (loadVersion None) (exec (setVersion "1.0.0") workflow)) = Some "1.0.0".
Proof.
  intros w.
  assert (Hlocal : inProcess (storage (this w))) by exact I.
  split; [exact Hlocal|]. split; [vm_compute; reflexivity|]. split.
  - destruct (loadVersion_keeps_or_replaces None w Hlocal) as (_ & _ & _ & _ & H & _).
    destruct (H "2.0.0") as [Hv _]; [vm_compute; reflexivity | discriminate | exact Hv].
  - destruct (loadVersion_keeps_or_replaces None (exec (setVersion "1.0.0") workflow) I)
      as (_ & _ & H & _).
    rewrite H; vm_compute; reflexivity.
Defined.

(** X26: The state and the version live under two keys of the memory backend and
    do not disturb each other: [saveVersion] keeps the stored state name, and
    saving a state name (here through [addState] on a manager without current
    state, or through [saveState] itself) keeps the stored version. *)
Theorem state_and_version_keys_independent v n w m :
  storage (this w) = MemoryStorage m ->
  storedStateName (exec (saveVersion v) w) = storedStateName w
  ∧ storageGet "version" None (exec (saveState n) w) = storageGet "version" None w
  ∧ storedStateName (exec (saveState n) w) = Some n
  ∧ storageGet "version" None (exec (saveVersion v) w) = Some v
  ∧ (∀ remote,
       getVersion (exec (loadVersion remote) (exec (saveState n) (exec (saveVersion v) w)))
       = Some v)
  ∧ storedStateName (exec (saveVersion v) (exec (saveState n) w)) = Some n.
Proof.
  intros Hm.
  unfold storedStateName, storageGet, saveVersion, saveState, setVersion, loadVersion,
    getVersion, Memory.get, Memory.set.
  unmonad. rewrite Hm. unmonad.
  repeat split.
  - now rewrite lookup_insert_ne.
  - now rewrite lookup_insert_ne.
  - now rewrite lookup_insert_eq.
  - now rewrite lookup_insert_eq.
  - intros remote. unfold storageGet, Memory.get. unmonad.
    rewrite lookup_insert_ne by discriminate. rewrite lookup_insert_eq.
    unfold setVersion.
    destruct (truthy v); unmonad; now rewrite lookup_insert_eq.
  - rewrite lookup_insert_ne by discriminate. now rewrite lookup_insert_eq.
Qed.

Lemma state_and_version_keys_independent_witness :
  storedStateName (exec (saveVersion "2.0.0") workflow) = Some "initial".
Proof.
  destruct (state_and_version_keys_independent "2.0.0" "" workflow
              {[ "currentState" := "initial" ]}) as (H & _).
  - vm_compute. reflexivity.
  - rewrite H. vm_compute. reflexivity.
Defined.

(** ** The choice of the backend *)

(** X27: A [storageType] that is absent or not one of [memory], [mongo], [redis]
    leaves the manager without a backend, and then nothing is ever persisted
    or loaded: [saveState], [loadState] and [loadVersion] do nothing and
    [saveVersion] only sets the option in the configuration; none of them
    fails. *)
Theorem unknown_storageType_disables_persistence
    defaultConfig customConfig definition n v remote :
  (∀ s, ConfigManager.get "storageType" (ConfigManager.new defaultConfig customConfig) = Some s ->
        s ≠ "memory" ∧ s ≠ "mongo" ∧ s ≠ "redis") ->
  let w := construct defaultConfig definition customConfig in
  storage (this w) = NoStorage
  ∧ console w = []
  ∧ ∀ w', storage (this w') = NoStorage ->
      saveState n w' = (inr tt, w')
      ∧ loadState remote w' = (inr tt, w')
      ∧ loadVersion remote w' = (inr tt, w')
      ∧ fst (saveVersion v w') = inr tt
      ∧ storage (this (exec (saveVersion v) w')) = NoStorage
      ∧ console (exec (saveVersion v) w') = console w'
      ∧ getVersion (exec (saveVersion v) w') = Some v.
Proof.
  intros Htype w.
  assert (H0 : storage (this (construct defaultConfig None customConfig)) = NoStorage).
  { rewrite storage_of_type.
    unfold ConfigManager.get, ConfigManager.new in Htype.
    destruct ((customConfig ∪ defaultConfig) !! "storageType") as [s|]; [|reflexivity].
    destruct (Htype s eq_refl) as (H1 & H2 & H3). now apply other_storageType. }
  assert (Hw : storage (this w) = NoStorage ∧ console w = []).
  { subst w. destruct definition as [definition|]; [|split; [exact H0 | reflexivity]].
    unfold construct at 1 2. rewrite initializeWorkflow_runOps. cbn [snd].
    rewrite (initializeWorkflow_world definition) by reflexivity.
    fold (construct defaultConfig None customConfig).
    destruct (def_states definition); unmonad; unfold persistLog, persisted;
      rewrite H0; split; reflexivity. }
  split; [apply Hw|]. split; [apply Hw|].
  intros w' Hs.
  unfold saveState, loadState, loadVersion, saveVersion, setVersion, storageGet, getVersion.
  unmonad. rewrite Hs. unmonad. rewrite Hs.
  repeat split. apply lookup_insert_eq.
Qed.

Lemma unknown_storageType_disables_persistence_witness :
  storage (this (construct ∅ (Some exampleDefinition) {[ "storageType" := "file" ]})) = NoStorage.
Proof.
  refine (proj1 (unknown_storageType_disables_persistence ∅ {[ "storageType" := "file" ]}
                   (Some exampleDefinition) "" "" None _)).
  intros s Hs. vm_compute in Hs. injection Hs as <-. repeat split; discriminate.
Defined.
